(** * Relay runtime: record source, store and publish queue

    A shallow embedding of [RelayModernStore] and [RelayPublishQueue]
    (packages/relay-runtime/store) together with the properties of the
    store-and-publish engine that are stated about them. *)

From Stdlib Require Import ZArith.
From stdpp Require Import gmap strings list fin_maps.

Open Scope Z_scope.

(** ** Records and record sources *)

(** A DataID is an opaque string. *)
Abbreviation DataID := string (only parsing).

Inductive Scalar :=
  | SString (s : string)
  | SNumber (z : Z)
  | SBoolean (b : bool)
  | SNull.

(** Field values of a record: a scalar, a singular link [{__ref}] or a plural
    link [{__refs}] whose elements may be [null]. An absent key is an absent
    binding of the record map. *)
Inductive FieldValue :=
  | VScalar (s : Scalar)
  | VRef (id : DataID)
  | VRefs (ids : list (option DataID)).

#[global] Instance Scalar_eq_dec : EqDecision Scalar.
Proof. solve_decision. Defined.

#[global] Instance FieldValue_eq_dec : EqDecision FieldValue.
Proof. solve_decision. Defined.

(** A record is a JS object from storage keys (and the reserved [__id] and
    [__typename]) to field values. *)
Abbreviation Record := (gmap string FieldValue).

(** What a record source holds at a DataID: a record, [null] (the record was
    deleted) or the frozen [UNPUBLISH_RECORD_SENTINEL] object. A DataID that is
    not bound reads as [undefined]. *)
Inductive Entry :=
  | ERecord (r : Record)
  | ENull
  | EUnpublish.

#[global] Instance Entry_eq_dec : EqDecision Entry.
Proof. solve_decision. Defined.

Abbreviation RecordSource := (gmap string Entry).

(** The sentinel is the object [{__UNPUBLISH_RECORD_SENTINEL: true}]. *)
Definition UNPUBLISH_RECORD_SENTINEL : Record :=
  {[ "__UNPUBLISH_RECORD_SENTINEL"%string := VScalar (SBoolean true) ]}.

(** The [MutableRecordSource] interface used by the store and the queue. *)
Module RelayRecordSource.
Definition create : RecordSource := ∅.
Definition get (source : RecordSource) (dataID : DataID) : option Entry :=
  source !! dataID.
Definition set (dataID : DataID) (record : Record) (source : RecordSource)
  : RecordSource := <[dataID := ERecord record]> source.
(** [delete] writes [null]. *)
Definition delete (dataID : DataID) (source : RecordSource) : RecordSource :=
  <[dataID := ENull]> source.
(** [remove] forgets the DataID. *)
Definition remove (dataID : DataID) (source : RecordSource) : RecordSource :=
  base.delete dataID source.
Definition has (source : RecordSource) (dataID : DataID) : bool :=
  bool_decide (is_Some (source !! dataID)).
Definition size (source : RecordSource) : nat := base.size source.
Definition clear (source : RecordSource) : RecordSource := ∅.
Definition getRecordIDs (source : RecordSource) : list DataID :=
  (map_to_list source).*1.
End RelayRecordSource.

(** Modelled from the spec: [RelayModernRecord.update] is not part of the
    sources at hand. Section 4.5 describes it as a field-wise merge of the
    existing record with the new one that produces a new record, the previous
    record being kept when the merge is equal to it by value. The merge takes
    every field of [nextRecord] and keeps the other fields of [prevRecord]. *)
Definition RelayModernRecord_update (prevRecord nextRecord : Record) : Record :=
  nextRecord ∪ prevRecord.

(** The JS truthiness test [if (record)] on what a source returns: records and
    the sentinel object are truthy, [null] and [undefined] are not. *)
Definition truthy (e : option Entry) : option Record :=
  match e with
  | Some (ERecord r) => Some r
  | Some EUnpublish => Some UNPUBLISH_RECORD_SENTINEL
  | Some ENull | None => None
  end.

(** One iteration of the loop of [updateTargetFromSource]. The test
    [nextRecord !== targetRecord] compares references; the merge returns its
    first argument exactly when nothing changed, so it is a comparison by
    value here. *)
Definition updateTargetFromSource_step (dataID : DataID) (sourceRecord : Entry)
    (acc : RecordSource * gset string) : RecordSource * gset string :=
  let '(target, updatedRecordIDs) := acc in
  let targetRecord := RelayRecordSource.get target dataID in
  match sourceRecord with
  | EUnpublish =>
      (RelayRecordSource.remove dataID target, {[dataID]} ∪ updatedRecordIDs)
  | ERecord sourceFields =>
      match truthy targetRecord with
      | Some targetFields =>
          let nextRecord := RelayModernRecord_update targetFields sourceFields in
          if decide (nextRecord = targetFields) then (target, updatedRecordIDs)
          else (RelayRecordSource.set dataID nextRecord target,
                {[dataID]} ∪ updatedRecordIDs)
      | None =>
          (RelayRecordSource.set dataID sourceFields target,
           {[dataID]} ∪ updatedRecordIDs)
      end
  | ENull =>
      (RelayRecordSource.delete dataID target,
       if decide (targetRecord = Some ENull) then updatedRecordIDs
       else {[dataID]} ∪ updatedRecordIDs)
  end.

(** [updateTargetFromSource(target, source, updatedRecordIDs)]: the loop over
    [source.getRecordIDs()]. *)
Definition updateTargetFromSource (target source : RecordSource)
    (updatedRecordIDs : gset string) : RecordSource * gset string :=
  map_fold updateTargetFromSource_step (target, updatedRecordIDs) source.

(** What one iteration of [updateTargetFromSource] leaves at its DataID, and
    whether it marks the DataID as updated, from what the target and the
    source hold there. *)
Definition entry_after (targetRecord : option Entry) (sourceRecord : Entry)
    : option Entry :=
  match sourceRecord with
  | EUnpublish => None
  | ERecord sourceFields =>
      match truthy targetRecord with
      | Some targetFields =>
          if decide (RelayModernRecord_update targetFields sourceFields
                     = targetFields)
          then targetRecord
          else Some (ERecord
                       (RelayModernRecord_update targetFields sourceFields))
      | None => Some (ERecord sourceFields)
      end
  | ENull => Some ENull
  end.

Definition entry_marked (targetRecord : option Entry) (sourceRecord : Entry)
    : bool :=
  match sourceRecord with
  | EUnpublish => true
  | ERecord sourceFields =>
      match truthy targetRecord with
      | Some targetFields =>
          negb (bool_decide
                  (RelayModernRecord_update targetFields sourceFields
                   = targetFields))
      | None => true
      end
  | ENull => negb (bool_decide (targetRecord = Some ENull))
  end.

(** The DataIDs that a source maps to the unpublish sentinel. *)
Definition unpublished (source : RecordSource) : gset string :=
  dom (filter (λ kv, kv.2 = EUnpublish) source).

(** ** Calls into a record proxy

    A user updater, a handler of a handle field and the proxy methods
    [commitPayload] and [publishSource] act on a [RelayRecordSourceProxy] over
    a [RelayRecordSourceMutator(base, sink, backup)]. Such a call is given by
    its effect: from the base it reads, it takes the sink and the backup (when
    the mutator has one) to their contents when the call ends, and it either
    returns or raises. *)
Record MutatorState := {
  sink : RecordSource;
  backup : option RecordSource;
}.

Inductive Completion := Normal | Raised.

Definition ProxyAction : Type :=
  RecordSource → MutatorState → MutatorState * Completion.

Record HandleFieldPayload := {
  handle : string;
  payload_dataID : string;
  fieldKey : string;
  handleKey : string;
}.

(** [handler.update(store, fieldPayload)]. *)
Definition Handler : Type := HandleFieldPayload → ProxyAction.

Definition HandlerProvider : Type := string → option Handler.

(** ** Collaborators of the store and the queue

    The reader, the reference marker, the node recycler, the record proxy and
    the normalizer live in other modules. The store and the queue are written
    against them; they are the operations of this class. *)
Class Collaborators := {
  ReaderSelector : Type;
  NormalizationSelector : Type;
  (** The owner of a snapshot. *)
  RequestDescriptor : Type;
  (** The tree of data a read produces. *)
  SelectorData : Type;
  (** A GraphQL response handed to an optimistic update. *)
  Response : Type;
  (** [RelayReader.read(source, selector, owner)]: the data, the missing-data
      flag and the DataIDs seen. *)
  reader_read : RecordSource → ReaderSelector → RequestDescriptor →
                SelectorData * bool * gset string;
  (** [recycleNodesInto(prevData, nextData)]. *)
  recycleNodesInto : SelectorData → SelectorData → SelectorData;
  (** Reference equality [===] of two data trees. *)
  same_reference : SelectorData → SelectorData → bool;
  (** [RelayReferenceMarker.mark(source, selector, references, loader)]: the
      references set after marking. *)
  marker_mark : RecordSource → NormalizationSelector → gset string →
                gset string;
  (** An operation descriptor: its [fragment] (a reader selector, which the
      queue checks against [null]), its [root] and the request it stands for
      as the owner of a read. *)
  OperationDescriptor : Type;
  operation_fragment : OperationDescriptor → option ReaderSelector;
  operation_root : OperationDescriptor → NormalizationSelector;
  operation_request : OperationDescriptor → RequestDescriptor;
  (** [normalizeRelayPayload(root, response, null, options).source]; [None]
      when normalization raises. *)
  normalizeRelayPayload : NormalizationSelector → Response →
                          option RecordSource;
  (** [store.commitPayload(operation, response)] and
      [store.publishSource(source, fieldPayloads)] of a record proxy that was
      built with the given handler provider. *)
  proxy_commitPayload : option HandlerProvider → OperationDescriptor →
                        option Response → ProxyAction;
  proxy_publishSource : option HandlerProvider → RecordSource →
                        option (list HandleFieldPayload) → ProxyAction;
}.

Section Store.
Context `{C : Collaborators}.

(** A snapshot carries the fields of its reader selector, so that it can be
    read again. [seenRecords] is a map from DataID to record of which only the
    keys are used. *)
Record Snapshot := {
  selector : ReaderSelector;
  data : SelectorData;
  isMissingData : bool;
  seenRecords : gset string;
  owner : RequestDescriptor;
}.

Definition RelayReader_read (source : RecordSource) (sel : ReaderSelector)
    (own : RequestDescriptor) : Snapshot :=
  let '(d, missing, seen) := reader_read source sel own in
  {| selector := sel; data := d; isMissingData := missing;
     seenRecords := seen; owner := own |}.

(** A subscription callback is a function of the caller; a call of it is
    recorded with the snapshot it receives. *)
Definition Callback := nat.

Record Subscription := {
  callback : Callback;
  snapshot : Snapshot;
}.

Record Store := {
  _hasScheduledGC : bool;
  _index : nat;
  _recordSource : RecordSource;
  (** [Map<number, NormalizationSelector>], in insertion order. *)
  _roots : list (nat * NormalizationSelector);
  (** [Set<Subscription>], in insertion order. *)
  _subscriptions : list Subscription;
  _updatedRecordIDs : gset string;
  _gcHoldCounter : Z;
  _shouldScheduleGC : bool;
  (** The thunks handed to [_gcScheduler] that have not run yet. With the
      default scheduler a thunk runs after the current call has returned. *)
  scheduledThunks : nat;
}.

Definition set_recordSource (s : RecordSource) (st : Store) : Store :=
  {| _hasScheduledGC := _hasScheduledGC st; _index := _index st;
     _recordSource := s; _roots := _roots st;
     _subscriptions := _subscriptions st;
     _updatedRecordIDs := _updatedRecordIDs st;
     _gcHoldCounter := _gcHoldCounter st;
     _shouldScheduleGC := _shouldScheduleGC st;
     scheduledThunks := scheduledThunks st |}.

Definition set_gc (hasScheduled should : bool) (counter : Z) (thunks : nat)
    (st : Store) : Store :=
  {| _hasScheduledGC := hasScheduled; _index := _index st;
     _recordSource := _recordSource st; _roots := _roots st;
     _subscriptions := _subscriptions st;
     _updatedRecordIDs := _updatedRecordIDs st;
     _gcHoldCounter := counter;
     _shouldScheduleGC := should;
     scheduledThunks := thunks |}.

(** The constructor. *)
Definition RelayModernStore_new (source : RecordSource) : Store :=
  {| _hasScheduledGC := false; _index := 0%nat; _recordSource := source;
     _roots := []; _subscriptions := []; _updatedRecordIDs := ∅;
     _gcHoldCounter := 0; _shouldScheduleGC := false;
     scheduledThunks := 0%nat |}.

Definition getSource (st : Store) : RecordSource := _recordSource st.

Definition lookup (st : Store) (sel : ReaderSelector) (own : RequestDescriptor)
    : Snapshot :=
  RelayReader_read (_recordSource st) sel own.

(** [publish(source)]. *)
Definition publish (source : RecordSource) (st : Store) : Store :=
  let '(target, updated) :=
    updateTargetFromSource (_recordSource st) source (_updatedRecordIDs st) in
  {| _hasScheduledGC := _hasScheduledGC st; _index := _index st;
     _recordSource := target; _roots := _roots st;
     _subscriptions := _subscriptions st;
     _updatedRecordIDs := updated;
     _gcHoldCounter := _gcHoldCounter st;
     _shouldScheduleGC := _shouldScheduleGC st;
     scheduledThunks := scheduledThunks st |}.

(** The DataIDs that a [publish(source)] records as updated: what it adds to
    an empty [_updatedRecordIDs]. *)
Definition publish_records (source : RecordSource) (st : Store) : gset string :=
  (updateTargetFromSource (_recordSource st) source ∅).2.

(** Modelled from the spec: [hasOverlappingIDs] is not part of the sources at
    hand. Section 4.5: the intersection test uses the snapshot's seenRecords
    and the updated set, both keyed by DataID. *)
Definition hasOverlappingIDs (snap : Snapshot) (updatedRecordIDs : gset string)
    : bool :=
  existsb (λ dataID, bool_decide (dataID ∈ updatedRecordIDs))
          (elements (seenRecords snap)).

(** [_updateSubscription(subscription)]: the subscription afterwards, the
    owner returned (if any) and the calls of the callback. *)
Definition _updateSubscription (st : Store) (subscription : Subscription)
    : Subscription * option RequestDescriptor * list (Callback * Snapshot) :=
  let snap := snapshot subscription in
  if negb (hasOverlappingIDs snap (_updatedRecordIDs st)) then
    (subscription, None, [])
  else
    let nextSnapshot :=
      RelayReader_read (_recordSource st) (selector snap) (owner snap) in
    let nextData := recycleNodesInto (data snap) (data nextSnapshot) in
    let nextSnapshot :=
      {| selector := selector nextSnapshot; data := nextData;
         isMissingData := isMissingData nextSnapshot;
         seenRecords := seenRecords nextSnapshot;
         owner := owner nextSnapshot |} in
    let subscription' :=
      {| callback := callback subscription; snapshot := nextSnapshot |} in
    if negb (same_reference (data nextSnapshot) (data snap)) then
      (subscription', Some (owner snap),
       [(callback subscription, nextSnapshot)])
    else (subscription', None, []).

(** The snapshot that [_updateSubscription] computes for a subscription it
    reads again, and whether it calls the callback. *)
Definition reread (st : Store) (snap : Snapshot) : Snapshot :=
  let nextSnapshot :=
    RelayReader_read (_recordSource st) (selector snap) (owner snap) in
  {| selector := selector nextSnapshot;
     data := recycleNodesInto (data snap) (data nextSnapshot);
     isMissingData := isMissingData nextSnapshot;
     seenRecords := seenRecords nextSnapshot;
     owner := owner nextSnapshot |}.

Definition fires (st : Store) (snap : Snapshot) : bool :=
  hasOverlappingIDs snap (_updatedRecordIDs st)
  && negb (same_reference (data (reread st snap)) (data snap)).

(** The [forEach] of [notify]. *)
Fixpoint notify_subscriptions (st : Store) (subs : list Subscription)
    : list Subscription * list RequestDescriptor * list (Callback * Snapshot) :=
  match subs with
  | [] => ([], [], [])
  | subscription :: rest =>
      let '(subscription', updatedOwner, calls) :=
        _updateSubscription st subscription in
      let '(rest', updatedOwners, calls') := notify_subscriptions st rest in
      (subscription' :: rest',
       match updatedOwner with
       | Some o => o :: updatedOwners
       | None => updatedOwners
       end,
       calls ++ calls')
  end.

(** [notify()]: the store afterwards, the updated owners and the calls of
    subscription callbacks, in order. *)
Definition notify (st : Store)
    : Store * list RequestDescriptor * list (Callback * Snapshot) :=
  let '(subs, updatedOwners, calls) :=
    notify_subscriptions st (_subscriptions st) in
  ({| _hasScheduledGC := _hasScheduledGC st; _index := _index st;
      _recordSource := _recordSource st; _roots := _roots st;
      _subscriptions := subs;
      _updatedRecordIDs := ∅;
      _gcHoldCounter := _gcHoldCounter st;
      _shouldScheduleGC := _shouldScheduleGC st;
      scheduledThunks := scheduledThunks st |},
   updatedOwners, calls).

(** [subscribe(snapshot, callback)]. *)
Definition subscribe (snap : Snapshot) (cb : Callback) (st : Store) : Store :=
  {| _hasScheduledGC := _hasScheduledGC st; _index := _index st;
     _recordSource := _recordSource st; _roots := _roots st;
     _subscriptions :=
       _subscriptions st ++ [{| callback := cb; snapshot := snap |}];
     _updatedRecordIDs := _updatedRecordIDs st;
     _gcHoldCounter := _gcHoldCounter st;
     _shouldScheduleGC := _shouldScheduleGC st;
     scheduledThunks := scheduledThunks st |}.

(** [_scheduleGC()]: the scheduler receives a thunk that runs [__gc] and
    resets [_hasScheduledGC]. *)
Definition _scheduleGC (st : Store) : Store :=
  if bool_decide (_gcHoldCounter st > 0) then
    set_gc (_hasScheduledGC st) true (_gcHoldCounter st) (scheduledThunks st) st
  else if _hasScheduledGC st then st
  else set_gc true (_shouldScheduleGC st) (_gcHoldCounter st)
              (S (scheduledThunks st)) st.

(** [__gc()]. *)
Definition mark_roots (st : Store) : gset string :=
  foldl (λ references root, marker_mark (_recordSource st) root.2 references)
        ∅ (_roots st).

Definition evict_unreferenced (references : gset string) (source : RecordSource)
    : RecordSource :=
  foldl (λ src dataID,
           if bool_decide (dataID ∈ references) then src
           else RelayRecordSource.remove dataID src)
        source (RelayRecordSource.getRecordIDs source).

Definition __gc (st : Store) : Store :=
  let references := mark_roots st in
  if bool_decide (size references = 0%nat) then
    set_recordSource (RelayRecordSource.clear (_recordSource st)) st
  else
    set_recordSource (evict_unreferenced references (_recordSource st)) st.

(** The thunk given to the scheduler, when it runs. *)
Definition run_scheduled_thunk (st : Store) : Store :=
  match scheduledThunks st with
  | O => st
  | S n =>
      let st' := __gc st in
      set_gc false (_shouldScheduleGC st') (_gcHoldCounter st') n st'
  end.

(** [Map.prototype.set] on the roots: a bound key keeps its place. *)
Fixpoint roots_set (index : nat) (sel : NormalizationSelector)
    (roots : list (nat * NormalizationSelector))
    : list (nat * NormalizationSelector) :=
  match roots with
  | [] => [(index, sel)]
  | r :: rest =>
      if decide (r.1 = index) then (index, sel) :: rest
      else r :: roots_set index sel rest
  end.

(** [retain(selector)] and the [dispose] of the disposable it returns, which
    closes over the index. *)
Definition retain (sel : NormalizationSelector) (st : Store) : nat * Store :=
  let index := _index st in
  (index,
   {| _hasScheduledGC := _hasScheduledGC st; _index := S index;
      _recordSource := _recordSource st;
      _roots := roots_set index sel (_roots st);
      _subscriptions := _subscriptions st;
      _updatedRecordIDs := _updatedRecordIDs st;
      _gcHoldCounter := _gcHoldCounter st;
      _shouldScheduleGC := _shouldScheduleGC st;
      scheduledThunks := scheduledThunks st |}).

Definition retain_dispose (index : nat) (st : Store) : Store :=
  _scheduleGC
    {| _hasScheduledGC := _hasScheduledGC st; _index := _index st;
       _recordSource := _recordSource st;
       _roots := filter (λ r, r.1 ≠ index) (_roots st);
       _subscriptions := _subscriptions st;
       _updatedRecordIDs := _updatedRecordIDs st;
       _gcHoldCounter := _gcHoldCounter st;
       _shouldScheduleGC := _shouldScheduleGC st;
       scheduledThunks := scheduledThunks st |}.

(** [holdGC()] and the [dispose] of the disposable it returns. The closure
    has no state of its own: every disposable of [holdGC] behaves alike and
    can be disposed more than once. *)
Definition holdGC (st : Store) : Store :=
  set_gc (_hasScheduledGC st) (_shouldScheduleGC st) (_gcHoldCounter st + 1)
         (scheduledThunks st) st.

Definition holdGC_dispose (st : Store) : Store :=
  if bool_decide (_gcHoldCounter st > 0) then
    let st1 :=
      set_gc (_hasScheduledGC st) (_shouldScheduleGC st)
             (_gcHoldCounter st - 1) (scheduledThunks st) st in
    if bool_decide (_gcHoldCounter st1 = 0) && _shouldScheduleGC st1 then
      let st2 := _scheduleGC st1 in
      set_gc (_hasScheduledGC st2) false (_gcHoldCounter st2)
             (scheduledThunks st2) st2
    else st1
  else st.

(** The calls a client makes on a store, the scheduler running a thunk
    among them, and a sequence of them from left to right. *)
Inductive StoreCall :=
  | CallHoldGC
  | CallHoldGCDispose
  | CallRetain (sel : NormalizationSelector)
  | CallRetainDispose (index : nat)
  | CallPublish (source : RecordSource)
  | CallNotify
  | SchedulerRuns.

Definition store_call (st : Store) (c : StoreCall) : Store :=
  match c with
  | CallHoldGC => holdGC st
  | CallHoldGCDispose => holdGC_dispose st
  | CallRetain sel => (retain sel st).2
  | CallRetainDispose index => retain_dispose index st
  | CallPublish source => publish source st
  | CallNotify => (notify st).1.1
  | SchedulerRuns => run_scheduled_thunk st
  end.

Definition store_calls (st : Store) (calls : list StoreCall) : Store :=
  foldl store_call st calls.

End Store.

(** ** The publish queue *)

Section PublishQueue.
Context `{C : Collaborators}.

(** [StoreUpdater]: a function of the caller. Sets of updaters compare
    functions by reference; [su_id] stands for the reference. *)
Record StoreUpdater := {
  su_id : nat;
  su_call : ProxyAction;
}.

(** [SelectorStoreUpdater]: called with the selector proxy and the selector
    data, which is [undefined] ([None]) when there is no response. *)
Definition SelectorStoreUpdater : Type := option SelectorData → ProxyAction.

Record Payload := {
  fieldPayloads : option (list HandleFieldPayload);
  operation : OperationDescriptor;
  source : RecordSource;
  updater : option SelectorStoreUpdater;
}.

Inductive DataToCommit :=
  | DataPayload (payload : Payload)
  | DataSource (src : RecordSource).

(** The three shapes of an optimistic update, as [_applyUpdates] tells them
    apart: [operation] set, else [storeUpdater] set, else a source. *)
Inductive OptimisticVariant :=
  | OperationUpdate (op : OperationDescriptor) (response : option Response)
                    (selectorStoreUpdater : option SelectorStoreUpdater)
  | StoreUpdaterUpdate (storeUpdater : ProxyAction)
  | SourceUpdate (src : RecordSource)
                 (payloads : option (list HandleFieldPayload)).

(** An optimistic update is an object; [ou_id] stands for its reference. *)
Record OptimisticUpdate := {
  ou_id : nat;
  ou_variant : OptimisticVariant;
}.

(** The disposable returned by [holdGC]. *)
Inductive Disposable := HoldGCDisposable.

Record PublishQueue := {
  _handlerProvider : option HandlerProvider;
  _backup : RecordSource;
  _pendingBackupRebase : bool;
  _pendingData : list DataToCommit;
  _pendingUpdaters : list StoreUpdater;
  _pendingOptimisticUpdates : list OptimisticUpdate;
  _appliedOptimisticUpdates : list OptimisticUpdate;
  _gcHold : option Disposable;
}.

(** The constructor. *)
Definition RelayPublishQueue_new (handlerProvider : option HandlerProvider)
    : PublishQueue :=
  {| _handlerProvider := handlerProvider;
     _backup := RelayRecordSource.create;
     _pendingBackupRebase := false;
     _pendingData := [];
     _pendingUpdaters := [];
     _pendingOptimisticUpdates := [];
     _appliedOptimisticUpdates := [];
     _gcHold := None |}.

(** Field assignments. *)
Definition set_backup (b : RecordSource) (q : PublishQueue) : PublishQueue :=
  {| _handlerProvider := _handlerProvider q; _backup := b;
     _pendingBackupRebase := _pendingBackupRebase q;
     _pendingData := _pendingData q;
     _pendingUpdaters := _pendingUpdaters q;
     _pendingOptimisticUpdates := _pendingOptimisticUpdates q;
     _appliedOptimisticUpdates := _appliedOptimisticUpdates q;
     _gcHold := _gcHold q |}.

Definition set_pendingBackupRebase (b : bool) (q : PublishQueue)
    : PublishQueue :=
  {| _handlerProvider := _handlerProvider q; _backup := _backup q;
     _pendingBackupRebase := b;
     _pendingData := _pendingData q;
     _pendingUpdaters := _pendingUpdaters q;
     _pendingOptimisticUpdates := _pendingOptimisticUpdates q;
     _appliedOptimisticUpdates := _appliedOptimisticUpdates q;
     _gcHold := _gcHold q |}.

Definition set_pendingData (d : list DataToCommit) (q : PublishQueue)
    : PublishQueue :=
  {| _handlerProvider := _handlerProvider q; _backup := _backup q;
     _pendingBackupRebase := _pendingBackupRebase q;
     _pendingData := d;
     _pendingUpdaters := _pendingUpdaters q;
     _pendingOptimisticUpdates := _pendingOptimisticUpdates q;
     _appliedOptimisticUpdates := _appliedOptimisticUpdates q;
     _gcHold := _gcHold q |}.

Definition set_pendingUpdaters (l : list StoreUpdater) (q : PublishQueue)
    : PublishQueue :=
  {| _handlerProvider := _handlerProvider q; _backup := _backup q;
     _pendingBackupRebase := _pendingBackupRebase q;
     _pendingData := _pendingData q;
     _pendingUpdaters := l;
     _pendingOptimisticUpdates := _pendingOptimisticUpdates q;
     _appliedOptimisticUpdates := _appliedOptimisticUpdates q;
     _gcHold := _gcHold q |}.

Definition set_pendingOptimisticUpdates (l : list OptimisticUpdate)
    (q : PublishQueue) : PublishQueue :=
  {| _handlerProvider := _handlerProvider q; _backup := _backup q;
     _pendingBackupRebase := _pendingBackupRebase q;
     _pendingData := _pendingData q;
     _pendingUpdaters := _pendingUpdaters q;
     _pendingOptimisticUpdates := l;
     _appliedOptimisticUpdates := _appliedOptimisticUpdates q;
     _gcHold := _gcHold q |}.

Definition set_appliedOptimisticUpdates (l : list OptimisticUpdate)
    (q : PublishQueue) : PublishQueue :=
  {| _handlerProvider := _handlerProvider q; _backup := _backup q;
     _pendingBackupRebase := _pendingBackupRebase q;
     _pendingData := _pendingData q;
     _pendingUpdaters := _pendingUpdaters q;
     _pendingOptimisticUpdates := _pendingOptimisticUpdates q;
     _appliedOptimisticUpdates := l;
     _gcHold := _gcHold q |}.

Definition set_gcHold (h : option Disposable) (q : PublishQueue)
    : PublishQueue :=
  {| _handlerProvider := _handlerProvider q; _backup := _backup q;
     _pendingBackupRebase := _pendingBackupRebase q;
     _pendingData := _pendingData q;
     _pendingUpdaters := _pendingUpdaters q;
     _pendingOptimisticUpdates := _pendingOptimisticUpdates q;
     _appliedOptimisticUpdates := _appliedOptimisticUpdates q;
     _gcHold := h |}.

(** [Set<OptimisticUpdate>] and [Set<StoreUpdater>], in insertion order. *)
Definition ou_has (l : list OptimisticUpdate) (u : OptimisticUpdate) : bool :=
  existsb (λ v, bool_decide (ou_id v = ou_id u)) l.

Definition ou_add (u : OptimisticUpdate) (l : list OptimisticUpdate)
    : list OptimisticUpdate :=
  if ou_has l u then l else l ++ [u].

Definition ou_delete (u : OptimisticUpdate) (l : list OptimisticUpdate)
    : list OptimisticUpdate :=
  filter (λ v, ou_id v ≠ ou_id u) l.

Definition su_add (u : StoreUpdater) (l : list StoreUpdater)
    : list StoreUpdater :=
  if existsb (λ v, bool_decide (su_id v = su_id u)) l then l else l ++ [u].

(** No optimistic update is both pending and applied: [applyUpdate] refuses
    an update that is in either set, and a [run()] that returns has moved
    every pending update to the applied set. *)
Definition pending_applied_disjoint (q : PublishQueue) : Prop :=
  ∀ u, ou_has (_pendingOptimisticUpdates q) u = true →
       ou_has (_appliedOptimisticUpdates q) u = false.

(** *** The methods that only queue work *)

(** [revertUpdate(updater)]. *)
Definition revertUpdate (u : OptimisticUpdate) (q : PublishQueue)
    : PublishQueue :=
  if ou_has (_pendingOptimisticUpdates q) u then
    set_pendingOptimisticUpdates (ou_delete u (_pendingOptimisticUpdates q)) q
  else if ou_has (_appliedOptimisticUpdates q) u then
    set_appliedOptimisticUpdates (ou_delete u (_appliedOptimisticUpdates q))
      (set_pendingBackupRebase true q)
  else q.

(** [revertAll()]. *)
Definition revertAll (q : PublishQueue) : PublishQueue :=
  set_appliedOptimisticUpdates []
    (set_pendingOptimisticUpdates [] (set_pendingBackupRebase true q)).

(** [commitPayload(operation, {fieldPayloads, source}, updater)]. *)
Definition commitPayload (op : OperationDescriptor)
    (payloads : option (list HandleFieldPayload)) (src : RecordSource)
    (upd : option SelectorStoreUpdater) (q : PublishQueue) : PublishQueue :=
  set_pendingData
    (_pendingData q ++
     [DataPayload {| fieldPayloads := payloads; operation := op;
                     source := src; updater := upd |}])
    (set_pendingBackupRebase true q).

(** [commitUpdate(updater)]. *)
Definition commitUpdate (upd : StoreUpdater) (q : PublishQueue)
    : PublishQueue :=
  set_pendingUpdaters (su_add upd (_pendingUpdaters q))
    (set_pendingBackupRebase true q).

(** [commitSource(source)]. *)
Definition commitSource (src : RecordSource) (q : PublishQueue)
    : PublishQueue :=
  set_pendingData (_pendingData q ++ [DataSource src])
    (set_pendingBackupRebase true q).

(** *** The world a [run()] acts on, and the monad of its steps

    The queue holds a reference to its store. Errors that
    [ErrorUtils.applyWithGuard] catches are reported under the name of the
    guard; calls of subscription callbacks are recorded. A step either
    returns or raises, and in both cases leaves a world behind. *)
Record World := {
  queue : PublishQueue;
  store : Store;
  reported : list string;
  called : list (Callback * Snapshot);
}.

Inductive Outcome (A : Type) :=
  | Returns (a : A) (w : World)
  | Throws (w : World).
Arguments Returns {A} a w.
Arguments Throws {A} w.

Definition M (A : Type) : Type := World → Outcome A.

(** Whether an outcome is a return, and the world an outcome leaves. *)
Definition returns {A} (o : Outcome A) : bool :=
  match o with
  | Returns _ _ => true
  | Throws _ => false
  end.

Definition outcome_world {A} (o : Outcome A) : World :=
  match o with
  | Returns _ w => w
  | Throws w => w
  end.

#[global] Instance M_ret : MRet M := λ A (a : A) w, Returns a w.

#[global] Instance M_bind : MBind M := λ A B (k : A → M B) (m : M A) w,
  match m w with
  | Returns a w' => k a w'
  | Throws w' => Throws w'
  end.

Definition throw {A} : M A := λ w, Throws w.

Definition get_world : M World := λ w, Returns w w.

Definition with_queue (q : PublishQueue) (w : World) : World :=
  {| queue := q; store := store w; reported := reported w;
     called := called w |}.

Definition with_store (st : Store) (w : World) : World :=
  {| queue := queue w; store := st; reported := reported w;
     called := called w |}.

Definition modify_queue (f : PublishQueue → PublishQueue) : M unit :=
  λ w, Returns tt (with_queue (f (queue w)) w).

Definition modify_store (f : Store → Store) : M unit :=
  λ w, Returns tt (with_store (f (store w)) w).

(** What holds of the outcome of a step: [Q] when it returns, [E] when it
    raises. *)
Definition wp {A} (m : M A) (Q : A → World → Prop) (E : World → Prop)
    (w : World) : Prop :=
  match m w with
  | Returns a w' => Q a w'
  | Throws w' => E w'
  end.

Definition report (name : string) : M unit :=
  λ w, Returns tt {| queue := queue w; store := store w;
                     reported := reported w ++ [name];
                     called := called w |}.

Definition record_calls (calls : list (Callback * Snapshot)) : M unit :=
  λ w, Returns tt {| queue := queue w; store := store w;
                     reported := reported w;
                     called := called w ++ calls |}.


(** Running a call into a proxy whose mutator is built over the store's
    source, the given sink and, when [with_backup], the queue's backup. The
    backup is the queue's own source object: what the call writes to it is
    written to [_backup]. The sink afterwards and the completion are
    returned. *)
Definition call_proxy (act : ProxyAction) (snk : RecordSource)
    (with_backup : bool) : M (RecordSource * Completion) :=
  λ w,
    let before :=
      {| sink := snk;
         backup := if with_backup then Some (_backup (queue w)) else None |} in
    let '(after, completion) := act (getSource (store w)) before in
    let q :=
      match with_backup, backup after with
      | true, Some b => set_backup b (queue w)
      | _, _ => queue w
      end in
    Returns (sink after, completion) (with_queue q w).

(** A call that is not guarded: an error leaves the method. *)
Definition call_unguarded (act : ProxyAction) (snk : RecordSource)
    (with_backup : bool) : M RecordSource :=
  r ← call_proxy act snk with_backup;
  match r.2 with
  | Normal => mret r.1
  | Raised => throw
  end.

(** [ErrorUtils.applyWithGuard(fn, null, args, null, name)]: an error of [fn]
    is caught and reported under [name]. *)
Definition applyWithGuard (act : ProxyAction) (snk : RecordSource)
    (with_backup : bool) (name : string) : M RecordSource :=
  r ← call_proxy act snk with_backup;
  match r.2 with
  | Normal => mret r.1
  | Raised => report name;; mret r.1
  end.

(** [lookupSelector(source, selector, owner)]. *)
Definition lookupSelector (src : RecordSource) (sel : ReaderSelector)
    (own : OperationDescriptor) : SelectorData :=
  data (RelayReader_read src sel (operation_request own)).

(** *** [run()] and its steps *)

(** The [forEach] over the field payloads of [_getSourceFromPayload]: the
    handler of each handle is looked up, an [invariant] raising when there is
    none, and updates the proxy. *)
Fixpoint run_handlers (handlerProvider : option HandlerProvider)
    (base : RecordSource) (payloads : list HandleFieldPayload)
    (snk : RecordSource) : RecordSource * Completion :=
  match payloads with
  | [] => (snk, Normal)
  | fieldPayload :: rest =>
      match handlerProvider ≫= (λ provider, provider (handle fieldPayload)) with
      | None => (snk, Raised)
      | Some handler =>
          let '(after, completion) :=
            handler fieldPayload base {| sink := snk; backup := None |} in
          match completion with
          | Normal => run_handlers handlerProvider base rest (sink after)
          | Raised => (sink after, Raised)
          end
      end
  end.

(** [_getSourceFromPayload(payload)]. The mutator is built over the store's
    source and the source of the payload, which is the sink: the method
    returns that same source object. Its contents at the end and the
    completion are returned. *)
Definition _getSourceFromPayload (q : PublishQueue) (st : Store)
    (payload : Payload) : RecordSource * Completion :=
  let base := getSource st in
  let '(snk, completion) :=
    match fieldPayloads payload with
    | Some (fieldPayload :: rest) =>
        run_handlers (_handlerProvider q) base (fieldPayload :: rest)
                     (source payload)
    | _ => (source payload, Normal)
    end in
  match completion with
  | Raised => (snk, Raised)
  | Normal =>
      match updater payload with
      | None => (snk, Normal)
      | Some upd =>
          match operation_fragment (operation payload) with
          | None => (snk, Raised)
          | Some sel =>
              let selectorData := lookupSelector snk sel (operation payload) in
              let '(after, completion') :=
                upd (Some selectorData) base
                    {| sink := snk; backup := None |} in
              (sink after, completion')
          end
      end
  end.

(** The [forEach] of [_commitData]. [done] are the entries already committed;
    an entry stays in [_pendingData] until the set is cleared, and the source
    of a payload entry is the object its updaters wrote to. *)
Fixpoint commit_entries (done todo : list DataToCommit) : M unit :=
  match todo with
  | [] => mret tt
  | DataPayload payload :: rest =>
      w ← get_world;
      let '(snk, completion) :=
        _getSourceFromPayload (queue w) (store w) payload in
      let entry :=
        DataPayload {| fieldPayloads := fieldPayloads payload;
                       operation := operation payload;
                       source := snk;
                       updater := updater payload |} in
      match completion with
      | Raised =>
          modify_queue (set_pendingData (done ++ entry :: rest));; throw
      | Normal =>
          modify_store (publish snk);;
          commit_entries (done ++ [entry]) rest
      end
  | DataSource src :: rest =>
      modify_store (publish src);;
      commit_entries (done ++ [DataSource src]) rest
  end.

(** [_commitData()]. *)
Definition _commitData : M unit :=
  w ← get_world;
  match _pendingData (queue w) with
  | [] => mret tt
  | entries =>
      commit_entries [] entries;;
      modify_queue (set_pendingData [])
  end.

(** The [forEach] of [_commitUpdaters]: every updater writes to the one sink
    and is guarded. *)
Fixpoint run_updaters (updaters : list StoreUpdater) (snk : RecordSource)
    : M RecordSource :=
  match updaters with
  | [] => mret snk
  | upd :: rest =>
      snk' ← applyWithGuard (su_call upd) snk false
                            "RelayPublishQueue:commitUpdaters";
      run_updaters rest snk'
  end.

(** [_commitUpdaters()]. *)
Definition _commitUpdaters : M unit :=
  w ← get_world;
  match _pendingUpdaters (queue w) with
  | [] => mret tt
  | updaters =>
      snk ← run_updaters updaters RelayRecordSource.create;
      modify_store (publish snk);;
      modify_queue (set_pendingUpdaters [])
  end.

(** The body that both loops of [_applyUpdates] run for one optimistic
    update. *)
Definition run_optimisticUpdate (optimisticUpdate : OptimisticUpdate)
    (snk : RecordSource) : M RecordSource :=
  w ← get_world;
  let handlerProvider := _handlerProvider (queue w) in
  match ou_variant optimisticUpdate with
  | OperationUpdate op response selectorStoreUpdater =>
      snk1 ← call_unguarded (proxy_commitPayload handlerProvider op response)
                            snk true;
      selectorData ←
        match response with
        | Some r =>
            match normalizeRelayPayload (operation_root op) r,
                  operation_fragment op with
            | Some src, Some sel => mret (Some (lookupSelector src sel op))
            | _, _ => throw
            end
        | None => mret None
        end;
      match selectorStoreUpdater with
      | Some upd =>
          applyWithGuard (upd selectorData) snk1 true
                         "RelayPublishQueue:applyUpdates"
      | None => mret snk1
      end
  | StoreUpdaterUpdate storeUpdater =>
      applyWithGuard storeUpdater snk true "RelayPublishQueue:applyUpdates"
  | SourceUpdate src payloads =>
      call_unguarded (proxy_publishSource handlerProvider src payloads)
                     snk true
  end.

(** The loop that reruns the applied updates for a rebase. *)
Fixpoint rerun_applied (updates : list OptimisticUpdate) (snk : RecordSource)
    : M RecordSource :=
  match updates with
  | [] => mret snk
  | optimisticUpdate :: rest =>
      snk' ← run_optimisticUpdate optimisticUpdate snk;
      rerun_applied rest snk'
  end.

(** The loop that applies the new updates and adds each to the applied
    set. *)
Fixpoint apply_pending (updates : list OptimisticUpdate) (snk : RecordSource)
    : M RecordSource :=
  match updates with
  | [] => mret snk
  | optimisticUpdate :: rest =>
      snk' ← run_optimisticUpdate optimisticUpdate snk;
      modify_queue (λ q, set_appliedOptimisticUpdates
                           (ou_add optimisticUpdate
                                   (_appliedOptimisticUpdates q)) q);;
      apply_pending rest snk'
  end.

Definition nonempty {A} (l : list A) : bool :=
  match l with [] => false | _ => true end.

(** [_applyUpdates()]. *)
Definition _applyUpdates : M unit :=
  w ← get_world;
  let q := queue w in
  let rebase :=
    _pendingBackupRebase q && nonempty (_appliedOptimisticUpdates q) in
  if nonempty (_pendingOptimisticUpdates q) || rebase then
    snk ← (if rebase
           then rerun_applied (_appliedOptimisticUpdates q)
                              RelayRecordSource.create
           else mret RelayRecordSource.create);
    snk' ← (if nonempty (_pendingOptimisticUpdates q)
            then (s ← apply_pending (_pendingOptimisticUpdates q) snk;
                  modify_queue (set_pendingOptimisticUpdates []);;
                  mret s)
            else mret snk);
    modify_store (publish snk')
  else mret tt.

(** The first statement of [run()]: undo the applied optimistic updates. *)
Definition publish_backup : M unit :=
  w ← get_world;
  if _pendingBackupRebase (queue w)
     && negb (bool_decide (RelayRecordSource.size (_backup (queue w)) = 0%nat))
  then
    modify_store (publish (_backup (queue w)));;
    modify_queue (set_backup RelayRecordSource.create)
  else mret tt.

(** The statements of [run()] on [_gcHold]. *)
Definition reconcile_gcHold : M unit :=
  w ← get_world;
  if nonempty (_appliedOptimisticUpdates (queue w)) then
    match _gcHold (queue w) with
    | None =>
        modify_store holdGC;;
        modify_queue (set_gcHold (Some HoldGCDisposable))
    | Some _ => mret tt
    end
  else
    match _gcHold (queue w) with
    | Some HoldGCDisposable =>
        modify_store holdGC_dispose;;
        modify_queue (set_gcHold None)
    | None => mret tt
    end.

(** [this._store.notify()]. *)
Definition store_notify : M (list RequestDescriptor) :=
  w ← get_world;
  let '(st, updatedOwners, calls) := notify (store w) in
  modify_store (λ _, st);;
  record_calls calls;;
  mret updatedOwners.

(** The part of a store that [holdGC], its disposables and the scheduler
    act on. *)
Definition gc_state (st : Store) : bool * bool * Z * nat :=
  (_hasScheduledGC st, _shouldScheduleGC st, _gcHoldCounter st,
   scheduledThunks st).

(** The GC state of the store and the hold of the queue are as in [w0]. *)
Definition gc_frame (w0 w : World) : Prop :=
  gc_state (store w) = gc_state (store w0)
  ∧ _gcHold (queue w) = _gcHold (queue w0).

(** [run()]. *)
Definition run : M (list RequestDescriptor) :=
  publish_backup;;
  _commitData;;
  _commitUpdaters;;
  _applyUpdates;;
  modify_queue (set_pendingBackupRebase false);;
  reconcile_gcHold;;
  store_notify.

(** [applyUpdate(updater)]: the [invariant] raises when the update is already
    applied or pending. *)
Definition applyUpdate (upd : OptimisticUpdate) : M unit :=
  w ← get_world;
  if negb (ou_has (_appliedOptimisticUpdates (queue w)) upd)
     && negb (ou_has (_pendingOptimisticUpdates (queue w)) upd)
  then modify_queue (λ q, set_pendingOptimisticUpdates
                            (ou_add upd (_pendingOptimisticUpdates q)) q)
  else throw.

(** *** Sequences of calls on the queue *)

(** The calls a client makes on the queue to apply and revert optimistic
    updates, and a sequence of them from left to right. *)
Inductive QueueCall :=
  | CallApplyUpdate (upd : OptimisticUpdate)
  | CallRevertUpdate (upd : OptimisticUpdate)
  | CallRevertAll
  | CallRun.

Definition queue_call (c : QueueCall) : M unit :=
  match c with
  | CallApplyUpdate upd => applyUpdate upd
  | CallRevertUpdate upd => modify_queue (revertUpdate upd)
  | CallRevertAll => modify_queue revertAll
  | CallRun => run;; mret tt
  end.

Fixpoint queue_calls (calls : list QueueCall) : M unit :=
  match calls with
  | [] => mret tt
  | c :: rest => queue_call c;; queue_calls rest
  end.

(** A fresh queue on a store. *)
Definition fresh_world (handlerProvider : option HandlerProvider)
    (st : Store) : World :=
  {| queue := RelayPublishQueue_new handlerProvider; store := st;
     reported := []; called := [] |}.

End PublishQueue.

Arguments Returns {C A} a w.
Arguments Throws {C A} w.

(** ** Invariants and views of the store and the queue *)

(** A source that does not hold the unpublish sentinel. *)
Definition no_sentinel (source : RecordSource) : Prop :=
  ∀ j, source !! j ≠ Some EUnpublish.

Section Views.
Context `{C : Collaborators}.

(** Every root is at an index below [_index]. *)
Definition roots_wf (st : Store) : Prop :=
  Forall (λ r, (r.1 < _index st)%nat) (_roots st).

(** At most one thunk of the scheduler is outstanding, and
    [_hasScheduledGC] says whether one is. *)
Definition gc_coalesced (st : Store) : Prop :=
  (scheduledThunks st ≤ 1)%nat
  ∧ (_hasScheduledGC st = true ↔ scheduledThunks st = 1%nat).

(** The fields of the queue that hold its work: all but [_backup] and
    [_gcHold]. *)
Definition queued_work (q : PublishQueue)
    : option HandlerProvider * bool * list DataToCommit * list StoreUpdater
      * list OptimisticUpdate * list OptimisticUpdate :=
  (_handlerProvider q, _pendingBackupRebase q, _pendingData q,
   _pendingUpdaters q, _pendingOptimisticUpdates q,
   _appliedOptimisticUpdates q).





(** The target after [updateTargetFromSource]. *)
Definition published (target source : RecordSource) : RecordSource :=
  (updateTargetFromSource target source ∅).1.

End Views.

(** ** Reader, reference marker and node recycler *)

(** The data tree of a snapshot. *)
#[local] Unset Elimination Schemes.
Inductive Data :=
  | DUndefined
  | DNull
  | DValue (v : FieldValue)
  | DObject (fields : list (string * Data))
  | DArray (items : list Data).

(** The selections of a compiled node that the store engine follows: scalar
    fields and singular or plural linked fields, each with the name it is read
    under and its storage key. *)
Inductive Selection :=
  | ScalarField (name storageKey : string)
  | LinkedField (name storageKey : string) (plural : bool)
                (selections : list Selection).

#[local] Set Elimination Schemes.

(** A selector: the selections of its node and its DataID. *)
Record Selector := {
  node : list Selection;
  dataID : DataID;
}.

(** What the reader accumulates while it traverses. *)
Record ReaderState := {
  missing : bool;
  seen : gset string;
}.

Definition mark_missing (st : ReaderState) : ReaderState :=
  {| missing := true; seen := seen st |}.

Definition mark_seen (id : DataID) (st : ReaderState) : ReaderState :=
  {| missing := missing st; seen := {[id]} ∪ seen st |}.

(** A stored scalar, as data. *)
Definition value_data (v : FieldValue) : Data :=
  match v with
  | VScalar SNull => DNull
  | _ => DValue v
  end.

(** Modelled from the spec: [RelayReader] is not part of the sources at hand
    (its tests are). Section 4.3: every record visited, also one whose read
    gives null or absent, is added to seenRecords; a record that is tombstoned
    reads as [null]; one that is absent reads as [undefined] and marks the
    read as missing data; a scalar field reads [record[storageKey]] and marks
    missing data when the key is absent; a linked field follows the reference
    and recurses; a plural linked field maps each reference and keeps the
    holes. A link field that holds [null], or a value that is not a link of
    its kind, reads as [null]. [read_selection] reads one selection of a
    record into a field of the data object. *)
Fixpoint read_selection (source : RecordSource) (sel : Selection)
    (record : Record) (st : ReaderState) {struct sel}
    : (string * Data) * ReaderState :=
  match sel with
  | ScalarField name storageKey =>
      match record !! storageKey with
      | None => ((name, DUndefined), mark_missing st)
      | Some v => ((name, value_data v), st)
      end
  | LinkedField name storageKey plural selections =>
      let traverse (id : DataID) (st : ReaderState) : Data * ReaderState :=
        let st := mark_seen id st in
        match truthy (source !! id), source !! id with
        | Some linked, _ =>
            let '(fields, st') :=
              (fix read_all (sels : list Selection) (st : ReaderState)
                 : list (string * Data) * ReaderState :=
                 match sels with
                 | [] => ([], st)
                 | s :: rest =>
                     let '(field, st1) := read_selection source s linked st in
                     let '(fields, st2) := read_all rest st1 in
                     (field :: fields, st2)
                 end) selections st in
            (DObject fields, st')
        | None, Some _ => (DNull, st)
        | None, None => (DUndefined, mark_missing st)
        end in
      match record !! storageKey, plural with
      | None, _ => ((name, DUndefined), mark_missing st)
      | Some (VRef id), false =>
          let '(d, st') := traverse id st in ((name, d), st')
      | Some (VRefs ids), true =>
          let '(items, st') :=
            (fix read_items (ids : list (option DataID)) (st : ReaderState)
               : list Data * ReaderState :=
               match ids with
               | [] => ([], st)
               | None :: rest =>
                   let '(items, st') := read_items rest st in
                   (DNull :: items, st')
               | Some id :: rest =>
                   let '(d, st1) := traverse id st in
                   let '(items, st2) := read_items rest st1 in
                   (d :: items, st2)
               end) ids st in
          ((name, DArray items), st')
      | Some _, _ => ((name, DNull), st)
      end
  end.

Fixpoint read_selections (source : RecordSource) (sels : list Selection)
    (record : Record) (st : ReaderState)
    : list (string * Data) * ReaderState :=
  match sels with
  | [] => ([], st)
  | s :: rest =>
      let '(field, st1) := read_selection source s record st in
      let '(fields, st2) := read_selections source rest record st1 in
      (field :: fields, st2)
  end.

(** The traversal of a node at a DataID, which is also how the root of a
    selector is read. *)
Definition reader_traverse (source : RecordSource) (sels : list Selection)
    (id : DataID) (st : ReaderState) : Data * ReaderState :=
  let st := mark_seen id st in
  match truthy (source !! id), source !! id with
  | Some record, _ =>
      let '(fields, st') := read_selections source sels record st in
      (DObject fields, st')
  | None, Some _ => (DNull, st)
  | None, None => (DUndefined, mark_missing st)
  end.

(** [RelayReader.read(source, selector, owner)]: data, isMissingData and
    seenRecords. *)
Definition Reader_read (source : RecordSource) (sel : Selector)
    : Data * bool * gset string :=
  let '(d, st) :=
    reader_traverse source (node sel) (dataID sel)
                    {| missing := false; seen := ∅ |} in
  (d, missing st, seen st).

(** Modelled from the spec: [RelayReferenceMarker] is not part of the sources
    at hand. Section 4.4: it traverses a normalization selector over a source
    and adds every DataID visited to the references set; of the field data it
    reads only linked references. What it visits are the records of the
    source ([__gc] marks "all records that are traversable from a root"): a
    DataID is added when the source holds a record for it, and the traversal
    goes on from that record. [mark_selection] marks what one selection of a
    record reaches. *)
Fixpoint mark_selection (source : RecordSource) (sel : Selection)
    (record : Record) (references : gset string) {struct sel} : gset string :=
  match sel with
  | ScalarField _ _ => references
  | LinkedField _ storageKey plural selections =>
      let traverse (id : DataID) (references : gset string) : gset string :=
        match truthy (source !! id) with
        | Some linked =>
            (fix mark_all (sels : list Selection) (references : gset string)
               : gset string :=
               match sels with
               | [] => references
               | s :: rest =>
                   mark_all rest (mark_selection source s linked references)
               end) selections ({[id]} ∪ references)
        | None => references
        end in
      match record !! storageKey, plural with
      | Some (VRef id), false => traverse id references
      | Some (VRefs ids), true =>
          (fix mark_items (ids : list (option DataID))
               (references : gset string) : gset string :=
             match ids with
             | [] => references
             | None :: rest => mark_items rest references
             | Some id :: rest => mark_items rest (traverse id references)
             end) ids references
      | _, _ => references
      end
  end.

Definition marker_traverse (source : RecordSource) (sels : list Selection)
    (id : DataID) (references : gset string) : gset string :=
  match truthy (source !! id) with
  | Some record =>
      foldl (λ refs s, mark_selection source s record refs)
            ({[id]} ∪ references) sels
  | None => references
  end.

(** [RelayReferenceMarker.mark(source, selector, references)]. *)
Definition ReferenceMarker_mark (source : RecordSource) (sel : Selector)
    (references : gset string) : gset string :=
  marker_traverse source (node sel) (dataID sel) references.

(** Equality of data trees by value. *)
Fixpoint Data_eqb (a b : Data) {struct a} : bool :=
  match a, b with
  | DUndefined, DUndefined => true
  | DNull, DNull => true
  | DValue v, DValue v' => bool_decide (v = v')
  | DObject fields, DObject fields' =>
      (fix all_eqb (l l' : list (string * Data)) : bool :=
         match l, l' with
         | [], [] => true
         | (k, d) :: rest, (k', d') :: rest' =>
             bool_decide (k = k') && Data_eqb d d' && all_eqb rest rest'
         | _, _ => false
         end) fields fields'
  | DArray items, DArray items' =>
      (fix all_eqb (l l' : list Data) : bool :=
         match l, l' with
         | [], [] => true
         | d :: rest, d' :: rest' => Data_eqb d d' && all_eqb rest rest'
         | _, _ => false
         end) items items'
  | _, _ => false
  end.

(** Modelled from the spec: [recycleNodesInto] is not part of the sources at
    hand. Section 4.7: where a subtree of the new tree is value-equal to the
    previous one, it is replaced by the previous subtree reference. Data trees
    carry no references here: the recycled tree has the value of the new one,
    and it is the previous tree itself exactly when the two are value-equal,
    which is what [Data_same_reference] tests on a recycled tree. *)
Definition Data_recycleNodesInto (prevData nextData : Data) : Data :=
  if Data_eqb prevData nextData then prevData else nextData.

Definition Data_same_reference (a b : Data) : bool := Data_eqb a b.

(** An operation descriptor of the example environment. *)
Record Operation := {
  op_name : string;
  op_fragment : option Selector;
  op_root : Selector;
}.

(** The environment of the examples: the reader, marker and recycler above;
    requests are named; there are no responses to normalize, so that the
    [commitPayload] of its record proxy has nothing to write; its record
    proxy has no [publishSource]: the call raises. *)
#[global] Instance example_environment : Collaborators := {|
  ReaderSelector := Selector;
  NormalizationSelector := Selector;
  RequestDescriptor := string;
  SelectorData := Data;
  Response := Empty_set;
  reader_read := λ source sel _, Reader_read source sel;
  recycleNodesInto := Data_recycleNodesInto;
  same_reference := Data_same_reference;
  marker_mark := ReferenceMarker_mark;
  OperationDescriptor := Operation;
  operation_fragment := op_fragment;
  operation_root := op_root;
  operation_request := op_name;
  normalizeRelayPayload := λ _ r, match r with end;
  proxy_commitPayload := λ _ _ _ _ st, (st, Normal);
  proxy_publishSource := λ _ _ _ _ st, (st, Raised);
|}.

(** ** Examples *)

Definition user_record (id name : string) : Record :=
  {[ "__id"%string := VScalar (SString id);
     "__typename"%string := VScalar (SString "User");
     "name"%string := VScalar (SString name) ]}.

(** A store updater that creates the user "1" through the proxy: the record
    goes to the sink and, the record being new, the sentinel goes to the
    backup unless the backup has an entry for "1". Creating a record that
    exists raises. *)
Definition create_user : ProxyAction :=
  λ base st,
    match base !! "1"%string, sink st !! "1"%string with
    | None, None =>
        ({| sink := <["1"%string := ERecord (user_record "1" "Opti")]> (sink st);
            backup :=
              (λ b : RecordSource,
                 match b !! "1"%string with
                 | Some _ => b
                 | None => <["1"%string := EUnpublish]> b
                 end) <$> backup st |},
         Normal)
    | _, _ => (st, Raised)
    end.

(** An updater that raises before it writes anything. *)
Definition raising_updater : ProxyAction := λ _ st, (st, Raised).

Definition optimistic_create : OptimisticUpdate :=
  {| ou_id := 1; ou_variant := StoreUpdaterUpdate create_user |}.

Definition optimistic_other : OptimisticUpdate :=
  {| ou_id := 2; ou_variant := StoreUpdaterUpdate raising_updater |}.

(** A store over one record and a fresh queue on it. *)
Definition example_source : RecordSource :=
  {[ "2"%string := ERecord (user_record "2" "Bob") ]}.

Definition example_world : World :=
  {| queue := RelayPublishQueue_new None;
     store := RelayModernStore_new example_source;
     reported := [];
     called := [] |}.

(** The example queue with [optimistic_create] pending, and with it applied
    by a [run()]. *)
Definition world_pending : World :=
  outcome_world (applyUpdate optimistic_create example_world).

Definition world_applied : World := outcome_world (run world_pending).

(** A query for the user "2" whose payload comes with an updater that
    raises, and a source committed after it. *)
Definition user_query : Operation :=
  {| op_name := "UserQuery";
     op_fragment :=
       Some {| node := [ScalarField "name" "name"]; dataID := "2" |};
     op_root := {| node := [ScalarField "name" "name"]; dataID := "2" |} |}.

Definition payload_source : RecordSource :=
  {[ "2"%string := ERecord (user_record "2" "Robert") ]}.

Definition other_source : RecordSource :=
  {[ "3"%string := ERecord (user_record "3" "Claire") ]}.

Definition world_payload : World :=
  with_queue
    (commitSource other_source
       (commitPayload user_query None payload_source
                      (Some (λ _, raising_updater))
                      (queue example_world)))
    example_world.

(** A store in which the user "1" has a best friend "2", and "3" has the
    same name as "2"; a subscription to the best friend's name of "1". *)
Definition friends_source : RecordSource :=
  {[ "1"%string :=
       ERecord {[ "__id"%string := VScalar (SString "1");
                  "bestFriend"%string := VRef "2" ]};
     "2"%string := ERecord {[ "name"%string := VScalar (SString "Bob") ]};
     "3"%string := ERecord {[ "name"%string := VScalar (SString "Bob") ]} ]}.

Definition friend_selector : Selector :=
  {| node := [LinkedField "bestFriend" "bestFriend" false
                          [ScalarField "name" "name"]];
     dataID := "1" |}.

Definition friends_snapshot : Snapshot :=
  lookup (RelayModernStore_new friends_source) friend_selector
         "FriendQuery"%string.

Definition friends_subscription : Subscription :=
  {| callback := 7%nat; snapshot := friends_snapshot |}.

Definition friends_store : Store :=
  subscribe friends_snapshot 7%nat (RelayModernStore_new friends_source).

(** The best friend of "1" becomes "3". *)
Definition new_friend_source : RecordSource :=
  {[ "1"%string := ERecord {[ "bestFriend"%string := VRef "3" ]} ]}.

(** A source that touches only "3". *)
Definition claire_source : RecordSource :=
  {[ "3"%string := ERecord {[ "name"%string := VScalar (SString "Claire") ]} ]}.

(** A store with an empty source that retains a selector at the root. *)
Definition root_selector : Selector :=
  {| node := [LinkedField "me" "me" false [ScalarField "name" "name"]];
     dataID := "client:root" |}.

Definition retained_store : Store :=
  (retain root_selector (RelayModernStore_new ∅)).2.

(** The reader tests: a fragment on the user "4" read from a source in which
    "4" was deleted, and from an empty source. *)
Definition profile_selector : Selector :=
  {| node := [ScalarField "name" "name"]; dataID := "4" |}.

Definition deleted_source : RecordSource :=
  RelayRecordSource.delete "4" RelayRecordSource.create.

(** The queue with an updater that raises committed by [commitUpdate]. *)
Definition world_updater : World :=
  with_queue
    (commitUpdate {| su_id := 1; su_call := raising_updater |}
                  (queue example_world))
    example_world.

(** Whether the first subscription of a list has seen a DataID. *)
Definition first_has_seen (id : DataID) (subs : list Subscription) : bool :=
  match subs with
  | sub :: _ => bool_decide (id ∈ seenRecords (snapshot sub))
  | [] => false
  end.

(** The calls of the example: the update is applied and run. *)
Definition example_calls : list QueueCall :=
  [CallApplyUpdate optimistic_create; CallRun].

(** ** More examples *)

(** A source that deletes "2", unpublishes "3" and brings the user "4". *)
Definition mixed_source : RecordSource :=
  {[ "2"%string := ENull;
     "3"%string := EUnpublish;
     "4"%string := ERecord (user_record "4" "Dan") ]}.

(** The calls of an example on a store: a source is published and the
    subscriptions are notified. *)
Definition example_store_calls : list StoreCall :=
  [CallPublish mixed_source; CallNotify].


(** A payload with two handle fields, committed to a queue whose provider
    has a handler for the first only. *)
Definition name_handle : HandleFieldPayload :=
  {| handle := "uppercase"; payload_dataID := "2"; fieldKey := "name";
     handleKey := "__name_uppercase" |}.

Definition friends_handle : HandleFieldPayload :=
  {| handle := "connection"; payload_dataID := "2"; fieldKey := "friends";
     handleKey := "__friends_connection" |}.

(** A provider that has a handler, which writes nothing, for "uppercase"
    only. *)
Definition uppercase_provider : HandlerProvider :=
  λ name, if String.eqb name "uppercase"
          then Some (λ _ _ st, (st, Normal)) else None.

Definition handle_payload : Payload :=
  @Build_Payload example_environment (Some [name_handle; friends_handle])
                 user_query payload_source None.

Definition world_handle : World :=
  {| queue :=
       commitPayload user_query (Some [name_handle; friends_handle])
                     payload_source None
                     (RelayPublishQueue_new (Some uppercase_provider));
     store := RelayModernStore_new example_source;
     reported := [];
     called := [] |}.

(** A payload with an updater for an operation that has no fragment. *)
Definition fragmentless_query : Operation :=
  {| op_name := "UserMutation";
     op_fragment := None;
     op_root := {| node := [ScalarField "name" "name"]; dataID := "2" |} |}.

Definition fragmentless_payload : Payload :=
  @Build_Payload example_environment None fragmentless_query payload_source
                 (Some (λ _, create_user)).

Definition world_fragmentless : World :=
  with_queue
    (commitPayload fragmentless_query None payload_source
                   (Some (λ _, create_user))
                   (queue example_world))
    example_world.

(** An optimistic update that publishes a source through the record proxy,
    which raises in the environment of the examples. It is applied after
    [optimistic_create]; the [run()] raises in it. *)
Definition optimistic_source : OptimisticUpdate :=
  {| ou_id := 3; ou_variant := SourceUpdate other_source None |}.

Definition world_stuck : World :=
  outcome_world
    (run (outcome_world (applyUpdate optimistic_source world_pending))).


(** * Properties *)

(** ** Publishing, DataID by DataID *)

Lemma updateTargetFromSource_step_lookup dataID e target updated j :
  (updateTargetFromSource_step dataID e (target, updated)).1 !! j
  = if decide (j = dataID) then entry_after (target !! dataID) e
    else target !! j.
Proof.
  unfold updateTargetFromSource_step, entry_after, RelayRecordSource.get,
    RelayRecordSource.set, RelayRecordSource.remove, RelayRecordSource.delete.
  destruct e as [s| |]; simpl.
  - destruct (truthy (target !! dataID)) as [t|]; simpl.
    + destruct (decide (RelayModernRecord_update t s = t)); simpl;
        case_decide; subst; simplify_map_eq; done.
    + case_decide; subst; simplify_map_eq; done.
  - case_decide; subst; simplify_map_eq; done.
  - case_decide; subst; simplify_map_eq; done.
Qed.

Lemma updateTargetFromSource_step_updated dataID e target updated j :
  j ∈ (updateTargetFromSource_step dataID e (target, updated)).2
  ↔ j ∈ updated ∨ (j = dataID ∧ entry_marked (target !! dataID) e = true).
Proof.
  unfold updateTargetFromSource_step, entry_marked, RelayRecordSource.get.
  destruct e as [s| |]; simpl.
  - destruct (truthy (target !! dataID)) as [t|]; simpl.
    + destruct (decide (RelayModernRecord_update t s = t)) as [Heq|Hne]; simpl.
      * rewrite bool_decide_eq_true_2 by done. simpl. naive_solver.
      * rewrite bool_decide_eq_false_2 by done. simpl. set_solver.
    + set_solver.
  - destruct (decide (target !! dataID = Some ENull)) as [Heq|Hne]; simpl.
    + rewrite bool_decide_eq_true_2 by done. simpl. naive_solver.
    + rewrite bool_decide_eq_false_2 by done. simpl. set_solver.
  - set_solver.
Qed.

(** The loop of [updateTargetFromSource] touches each DataID of the source
    once, so its result can be read off DataID by DataID. *)
Lemma updateTargetFromSource_spec target source updated :
  ∀ j,
    (updateTargetFromSource target source updated).1 !! j
    = match source !! j with
      | Some e => entry_after (target !! j) e
      | None => target !! j
      end
    ∧ (j ∈ (updateTargetFromSource target source updated).2
       ↔ j ∈ updated
         ∨ ∃ e, source !! j = Some e ∧ entry_marked (target !! j) e = true).
Proof.
  unfold updateTargetFromSource.
  apply (map_fold_weak_ind (λ acc (m : RecordSource), ∀ j,
    acc.1 !! j = match m !! j with
                 | Some e => entry_after (target !! j) e
                 | None => target !! j
                 end
    ∧ (j ∈ acc.2 ↔ j ∈ updated
       ∨ ∃ e, m !! j = Some e ∧ entry_marked (target !! j) e = true))).
  - intros j. rewrite lookup_empty. simpl. naive_solver.
  - intros i x m [t u] Hi IH j.
    pose proof (IH i) as [Hti _]. rewrite Hi in Hti. simpl in Hti.
    rewrite updateTargetFromSource_step_lookup,
      updateTargetFromSource_step_updated.
    destruct (IH j) as [Htj Huj]. simpl in Htj, Huj.
    destruct (decide (j = i)) as [->|Hne].
    + rewrite lookup_insert_eq, Hti. split; [done|].
      rewrite Huj, Hi. naive_solver.
    + rewrite lookup_insert_ne by done. split; [done|].
      rewrite Huj. naive_solver.
Qed.

Lemma updateTargetFromSource_lookup target source updated j :
  (updateTargetFromSource target source updated).1 !! j
  = match source !! j with
    | Some e => entry_after (target !! j) e
    | None => target !! j
    end.
Proof. apply updateTargetFromSource_spec. Qed.

Lemma updateTargetFromSource_updated target source updated j :
  j ∈ (updateTargetFromSource target source updated).2
  ↔ j ∈ updated
    ∨ ∃ e, source !! j = Some e ∧ entry_marked (target !! j) e = true.
Proof. apply updateTargetFromSource_spec. Qed.

Lemma RelayModernRecord_update_again (targetFields sourceFields : Record) :
  RelayModernRecord_update
    (RelayModernRecord_update targetFields sourceFields) sourceFields
  = RelayModernRecord_update targetFields sourceFields.
Proof.
  unfold RelayModernRecord_update.
  by rewrite (assoc_L (∪)), (idemp_L (∪)).
Qed.

Lemma RelayModernRecord_update_same (fields : Record) :
  RelayModernRecord_update fields fields = fields.
Proof. unfold RelayModernRecord_update. by rewrite (idemp_L (∪)). Qed.

(** Merging the same source entry a second time changes nothing. *)
Lemma entry_after_again t e :
  entry_after (entry_after t e) e = entry_after t e.
Proof.
  destruct e as [s| |]; simpl; [|done|done].
  destruct (truthy t) as [tf|] eqn:Ht; simpl.
  - destruct (decide (RelayModernRecord_update tf s = tf)) as [Heq|Hne].
    + rewrite Ht. by rewrite decide_True.
    + simpl. by rewrite RelayModernRecord_update_again, decide_True.
  - by rewrite RelayModernRecord_update_same, decide_True.
Qed.

(** The second time, only the unpublish sentinel marks its DataID. *)
Lemma entry_marked_again t e :
  entry_marked (entry_after t e) e = bool_decide (e = EUnpublish).
Proof.
  destruct e as [s| |]; simpl; [| |done].
  - destruct (truthy t) as [tf|] eqn:Ht; simpl.
    + destruct (decide (RelayModernRecord_update tf s = tf)) as [Heq|Hne].
      * rewrite Ht. by rewrite bool_decide_eq_true_2.
      * simpl. rewrite RelayModernRecord_update_again.
        by rewrite bool_decide_eq_true_2.
    + rewrite RelayModernRecord_update_same.
      by rewrite bool_decide_eq_true_2.
  - by repeat case_bool_decide.
Qed.

Lemma elem_of_unpublished (source : RecordSource) j :
  j ∈ unpublished source ↔ source !! j = Some EUnpublish.
Proof.
  unfold unpublished. rewrite elem_of_dom. unfold is_Some.
  setoid_rewrite map_lookup_filter_Some. simpl. naive_solver.
Qed.

Lemma updateTargetFromSource_again target source updated :
  let first := updateTargetFromSource target source updated in
  updateTargetFromSource first.1 source ∅ = (first.1, unpublished source).
Proof.
  intros first.
  destruct (updateTargetFromSource first.1 source ∅) as [t u] eqn:Hsecond.
  f_equal.
  - apply map_eq. intros j.
    change t with (t, u).1. rewrite <- Hsecond.
    rewrite updateTargetFromSource_lookup. subst first.
    rewrite updateTargetFromSource_lookup.
    destruct (source !! j); [apply entry_after_again|done].
  - apply set_eq. intros j.
    change u with (t, u).2. rewrite <- Hsecond.
    rewrite updateTargetFromSource_updated, elem_of_unpublished. subst first.
    rewrite updateTargetFromSource_lookup.
    split.
    + intros [Hempty|(e & He & Hm)]; [set_solver|].
      rewrite He in Hm |- *. rewrite entry_marked_again in Hm.
      by apply bool_decide_eq_true_1 in Hm as ->.
    + intros He. right. exists EUnpublish. rewrite He. split; [done|].
      by rewrite entry_marked_again.
Qed.

(** Publishing the empty source changes nothing. *)
Lemma updateTargetFromSource_empty target updated :
  updateTargetFromSource target ∅ updated = (target, updated).
Proof. unfold updateTargetFromSource. by rewrite map_fold_empty. Qed.

Section StoreFacts.
Context `{C : Collaborators}.

Lemma publish_recordSource source st :
  _recordSource (publish source st)
  = (updateTargetFromSource (_recordSource st) source ∅).1.
Proof.
  unfold publish.
  destruct (updateTargetFromSource (_recordSource st) source
              (_updatedRecordIDs st)) as [t u] eqn:H1.
  simpl. apply map_eq. intros j.
  change t with (t, u).1. rewrite <- H1.
  by rewrite !updateTargetFromSource_lookup.
Qed.

(** What a publish leaves in [_updatedRecordIDs] is what was there and what
    the publish records. *)
Lemma publish_updatedRecordIDs source st :
  _updatedRecordIDs (publish source st)
  = _updatedRecordIDs st ∪ publish_records source st.
Proof.
  unfold publish, publish_records.
  destruct (updateTargetFromSource (_recordSource st) source
              (_updatedRecordIDs st)) as [t u] eqn:H1.
  simpl. apply set_eq. intros j.
  change u with (t, u).2. rewrite <- H1.
  rewrite elem_of_union, !updateTargetFromSource_updated. set_solver.
Qed.

(** C4 (as amended). For every record source S and every store, the second of
    two consecutive [publish(S)] leaves the canonical source as the first
    left it, and the DataIDs it records as updated are exactly those that S
    maps to the unpublish sentinel ([unpublished_empty]: none when S holds no
    sentinel). *)
Theorem publish_twice (source : RecordSource) (st : Store) :
  let st1 := publish source st in
  _recordSource (publish source st1) = _recordSource st1
  ∧ publish_records source st1 = unpublished source.
Proof.
  intros st1.
  assert (Hagain :
    updateTargetFromSource (_recordSource st1) source ∅
    = (_recordSource st1, unpublished source)).
  { subst st1. rewrite publish_recordSource.
    apply (updateTargetFromSource_again (_recordSource st) source ∅). }
  split.
  - rewrite publish_recordSource. by rewrite Hagain.
  - unfold publish_records. by rewrite Hagain.
Qed.

(** A source without the sentinel has no unpublished DataID. *)
Lemma unpublished_empty (source : RecordSource) :
  (∀ j, source !! j ≠ Some EUnpublish) → unpublished source = ∅.
Proof.
  intros Hnone. apply set_eq. intros j. rewrite elem_of_unpublished.
  split; [intros H; by apply Hnone in H | set_solver].
Qed.

(** ** Notifying subscriptions *)

Lemma hasOverlappingIDs_spec (snap : Snapshot) (updated : gset string) :
  hasOverlappingIDs snap updated = true
  ↔ ∃ id, id ∈ seenRecords snap ∧ id ∈ updated.
Proof.
  unfold hasOverlappingIDs. rewrite existsb_exists.
  split.
  - intros (id & Hin & Hup). exists id.
    apply list_elem_of_In, elem_of_elements in Hin.
    by apply bool_decide_eq_true_1 in Hup.
  - intros (id & Hseen & Hup). exists id. split.
    + by apply list_elem_of_In, elem_of_elements.
    + by apply bool_decide_eq_true_2.
Qed.

Lemma _updateSubscription_spec st sub :
  _updateSubscription st sub
  = if hasOverlappingIDs (snapshot sub) (_updatedRecordIDs st) then
      ({| callback := callback sub; snapshot := reread st (snapshot sub) |},
       if fires st (snapshot sub) then Some (owner (snapshot sub)) else None,
       if fires st (snapshot sub)
       then [(callback sub, reread st (snapshot sub))] else [])
    else (sub, None, []).
Proof.
  unfold _updateSubscription, fires.
  destruct (hasOverlappingIDs _ _); simpl; [|done].
  fold (reread st (snapshot sub)).
  by destruct (same_reference _ _).
Qed.

Lemma notify_subscriptions_spec st subs :
  notify_subscriptions st subs
  = (map (λ sub,
            if hasOverlappingIDs (snapshot sub) (_updatedRecordIDs st)
            then {| callback := callback sub;
                    snapshot := reread st (snapshot sub) |}
            else sub) subs,
     map (λ sub, owner (snapshot sub))
         (filter (λ sub, fires st (snapshot sub) = true) subs),
     flat_map (λ sub,
                 if fires st (snapshot sub)
                 then [(callback sub, reread st (snapshot sub))] else [])
              subs).
Proof.
  induction subs as [|sub subs IH]; [done|].
  simpl. rewrite IH, _updateSubscription_spec, filter_cons.
  destruct (hasOverlappingIDs _ _) eqn:Hoverlap.
  - destruct (fires st (snapshot sub)) eqn:Hfires.
    + by rewrite decide_True.
    + by rewrite decide_False.
  - assert (Hfires : fires st (snapshot sub) = false).
    { unfold fires. by rewrite Hoverlap. }
    rewrite Hfires. by rewrite decide_False.
Qed.

(** A publish records only DataIDs of the source it publishes. *)
Lemma publish_updated_elem source st j :
  j ∈ _updatedRecordIDs (publish source st) →
  j ∈ _updatedRecordIDs st ∨ is_Some (source !! j).
Proof.
  rewrite publish_updatedRecordIDs, elem_of_union. unfold publish_records.
  rewrite updateTargetFromSource_updated.
  intros [H|[H|(e & He & _)]]; [by left|set_solver|right; by eauto].
Qed.

(** C2 (as amended). [notify()] reads a subscription again exactly when the
    seenRecords of its snapshot and the updated DataIDs have a DataID in
    common. A subscription that is read again gets the new snapshot with the
    recycled data, whether or not the data changed; its callback is called,
    and the owner of its snapshot is added to the owners returned, exactly
    when the recycled data is not the same reference as the old data.
    [notify()] leaves the set of updated DataIDs empty. After publishing a
    source that has none of the DataIDs a snapshot has seen (none of which was
    recorded as updated before), the subscription is left as it is and its
    callback is not called. *)
Theorem notify_spec (st : Store) :
  (∀ snap, hasOverlappingIDs snap (_updatedRecordIDs st) = true
           ↔ ∃ id, id ∈ seenRecords snap ∧ id ∈ _updatedRecordIDs st)
  ∧ _subscriptions (notify st).1.1
    = map (λ sub,
             if hasOverlappingIDs (snapshot sub) (_updatedRecordIDs st)
             then {| callback := callback sub;
                     snapshot := reread st (snapshot sub) |}
             else sub) (_subscriptions st)
  ∧ (notify st).2
    = flat_map (λ sub,
                  if hasOverlappingIDs (snapshot sub) (_updatedRecordIDs st)
                     && negb (same_reference
                                (data (reread st (snapshot sub)))
                                (data (snapshot sub)))
                  then [(callback sub, reread st (snapshot sub))] else [])
               (_subscriptions st)
  ∧ (notify st).1.2
    = map (λ sub, owner (snapshot sub))
          (filter (λ sub, fires st (snapshot sub) = true) (_subscriptions st))
  ∧ _updatedRecordIDs (notify st).1.1 = ∅
  ∧ (∀ source sub,
       (∀ id, id ∈ seenRecords (snapshot sub) →
              (id ∉ _updatedRecordIDs st) ∧ (source !! id = None)) →
       _updateSubscription (publish source st) sub = (sub, None, [])).
Proof.
  split; [intros snap; apply hasOverlappingIDs_spec|].
  unfold notify. rewrite notify_subscriptions_spec. simpl.
  split; [done|]. split; [done|]. split; [done|]. split; [done|].
  intros source sub Hseen.
  rewrite _updateSubscription_spec.
  destruct (hasOverlappingIDs _ _) eqn:Hoverlap; [|done].
  apply hasOverlappingIDs_spec in Hoverlap as (id & Hid & Hup).
  destruct (Hseen id Hid) as [Hnot Hnone].
  apply publish_updated_elem in Hup as [Hup|[e He]]; [done|congruence].
Qed.

(** ** Garbage collection *)

Lemma evict_fold_lookup (references : gset string) (ids : list string)
    (source : RecordSource) j :
  foldl (λ src dataID,
           if bool_decide (dataID ∈ references) then src
           else RelayRecordSource.remove dataID src) source ids !! j
  = if bool_decide (j ∈ ids ∧ j ∉ references) then None else source !! j.
Proof.
  revert source. induction ids as [|id ids IH]; intros source; simpl.
  - done.
  - rewrite IH. unfold RelayRecordSource.remove.
    destruct (decide (id ∈ references)) as [Hin|Hnotin].
    + rewrite (bool_decide_eq_true_2 _ Hin).
      rewrite (bool_decide_ext (j ∈ ids ∧ j ∉ references)
                 (j ∈ id :: ids ∧ j ∉ references)); [done|].
      rewrite elem_of_cons. naive_solver.
    + rewrite (bool_decide_eq_false_2 _ Hnotin).
      destruct (decide (j = id)) as [->|Hne].
      * rewrite lookup_delete_eq.
        rewrite (bool_decide_eq_true_2 (id ∈ id :: ids ∧ _));
          [by case_bool_decide|].
        split; [by left|done].
      * rewrite lookup_delete_ne by done.
        rewrite (bool_decide_ext (j ∈ ids ∧ j ∉ references)
                   (j ∈ id :: ids ∧ j ∉ references)); [done|].
        rewrite elem_of_cons. naive_solver.
Qed.

Lemma evict_unreferenced_lookup references (source : RecordSource) j :
  evict_unreferenced references source !! j
  = if bool_decide (j ∈ references) then source !! j else None.
Proof.
  unfold evict_unreferenced. rewrite evict_fold_lookup.
  unfold RelayRecordSource.getRecordIDs.
  destruct (decide (j ∈ references)) as [Hin|Hnotin].
  - rewrite (bool_decide_eq_true_2 _ Hin).
    rewrite bool_decide_eq_false_2; [done|tauto].
  - rewrite (bool_decide_eq_false_2 (j ∈ references)) by done.
    case_bool_decide as Hj; [done|].
    destruct (source !! j) as [e|] eqn:He; [|done].
    exfalso. apply Hj. split; [|done].
    apply list_elem_of_fmap. exists (j, e). split; [done|].
    by apply elem_of_map_to_list.
Qed.




(** ** The GC hold counter *)

Lemma _scheduleGC_counter st : _gcHoldCounter (_scheduleGC st) = _gcHoldCounter st.
Proof.
  unfold _scheduleGC. case_bool_decide; [done|]. by destruct (_hasScheduledGC st).
Qed.

Lemma holdGC_dispose_counter st :
  _gcHoldCounter (holdGC_dispose st)
  = if bool_decide (_gcHoldCounter st > 0) then _gcHoldCounter st - 1
    else _gcHoldCounter st.
Proof.
  unfold holdGC_dispose. case_bool_decide; [|done].
  simpl. destruct (_ && _); [|done].
  simpl. by rewrite _scheduleGC_counter.
Qed.

Lemma store_call_counter_nonneg st c :
  0 ≤ _gcHoldCounter st → 0 ≤ _gcHoldCounter (store_call st c).
Proof.
  intros Hst. destruct c; simpl.
  - lia.
  - rewrite holdGC_dispose_counter. case_bool_decide; lia.
  - done.
  - unfold retain_dispose. by rewrite _scheduleGC_counter.
  - unfold publish. by destruct (updateTargetFromSource _ _ _).
  - unfold notify. by destruct (notify_subscriptions _ _) as [[? ?] ?].
  - unfold run_scheduled_thunk. destruct (scheduledThunks st); [done|].
    simpl. unfold __gc. by case_bool_decide.
Qed.

(** C9. From the constructor on, after every sequence of calls on the store
    ([holdGC], disposing a hold any number of times, and the other calls) the
    hold counter is at least zero, and disposing a hold when the counter is
    zero leaves the store as it is. *)
Theorem gcHoldCounter_never_negative (source : RecordSource)
    (calls : list StoreCall) :
  let st := store_calls (RelayModernStore_new source) calls in
  0 ≤ _gcHoldCounter st
  ∧ (_gcHoldCounter st = 0 → holdGC_dispose st = st).
Proof.
  intros st. split.
  - subst st. unfold store_calls.
    assert (H0 : 0 ≤ _gcHoldCounter (RelayModernStore_new source)) by done.
    revert H0. generalize (RelayModernStore_new source).
    induction calls as [|c calls IH]; intros s Hs; simpl; [done|].
    apply IH. by apply store_call_counter_nonneg.
  - intros Hzero. unfold holdGC_dispose.
    rewrite bool_decide_eq_false_2; [done|lia].
Qed.

End StoreFacts.

(** C4, counterexample. The source that unpublishes "1" is published twice to
    an empty store: the second publish records "1" again. *)
Lemma publish_twice_records_sentinel :
  let source : RecordSource := {[ "1"%string := EUnpublish ]} in
  let st1 := publish source (RelayModernStore_new ∅) in
  ¬ (_recordSource (publish source st1) = _recordSource st1
     ∧ publish_records source st1 = ∅).
Proof.
  intros source st1 [_ Hrecords].
  assert (Hin : "1"%string ∈ publish_records source st1).
  { unfold publish_records. rewrite updateTargetFromSource_updated.
    right. exists EUnpublish. split; [by subst source; simplify_map_eq|done]. }
  rewrite Hrecords in Hin. set_solver.
Qed.

(** C9, at a concrete sequence: a hold is taken and its disposable is disposed
    twice. *)
Lemma gcHoldCounter_never_negative_witness :
  let st := store_calls (RelayModernStore_new ∅)
              [CallHoldGC; CallHoldGCDispose; CallHoldGCDispose] in
  0 ≤ _gcHoldCounter st ∧ holdGC_dispose st = st.
Proof.
  intros st.
  destruct (gcHoldCounter_never_negative ∅
              [CallHoldGC; CallHoldGCDispose; CallHoldGCDispose])
    as [Hnonneg Hnoop].
  split; [exact Hnonneg|]. apply Hnoop. reflexivity.
Defined.

(** ** Reverting optimistic updates *)

Section QueueFacts.
Context `{C : Collaborators}.

Lemma ou_has_delete (u : OptimisticUpdate) (l : list OptimisticUpdate) :
  ou_has (ou_delete u l) u = false.
Proof.
  unfold ou_has, ou_delete. induction l as [|v l IH]; [done|].
  rewrite filter_cons. case_decide as Hv; simpl; [|done].
  rewrite IH. by rewrite bool_decide_eq_false_2.
Qed.

Lemma ou_has_delete_other (u v : OptimisticUpdate) (l : list OptimisticUpdate) :
  ou_id v ≠ ou_id u → ou_has (ou_delete u l) v = ou_has l v.
Proof.
  intros Hne. unfold ou_has, ou_delete. induction l as [|x l IH]; [done|].
  rewrite filter_cons. case_decide as Hx; simpl.
  - by rewrite IH.
  - rewrite IH.
    rewrite (bool_decide_eq_false_2 (ou_id x = ou_id v)); [done|congruence].
Qed.

(** C6 (as amended). [revertUpdate(u)] of a pending update removes it from
    the pending set and leaves the rebase flag and the applied set as they
    are; of an update that is applied and not pending it sets
    [_pendingBackupRebase] and removes it from the applied set; [revertAll()]
    empties both sets and sets [_pendingBackupRebase]. *)
Theorem revert_updates (u : OptimisticUpdate) (q : PublishQueue) :
  (ou_has (_pendingOptimisticUpdates q) u = true →
     _pendingOptimisticUpdates (revertUpdate u q)
       = ou_delete u (_pendingOptimisticUpdates q)
     ∧ ou_has (_pendingOptimisticUpdates (revertUpdate u q)) u = false
     ∧ _pendingBackupRebase (revertUpdate u q) = _pendingBackupRebase q
     ∧ _appliedOptimisticUpdates (revertUpdate u q)
       = _appliedOptimisticUpdates q)
  ∧ (ou_has (_pendingOptimisticUpdates q) u = false →
     ou_has (_appliedOptimisticUpdates q) u = true →
     _pendingBackupRebase (revertUpdate u q) = true
     ∧ _appliedOptimisticUpdates (revertUpdate u q)
       = ou_delete u (_appliedOptimisticUpdates q)
     ∧ ou_has (_appliedOptimisticUpdates (revertUpdate u q)) u = false
     ∧ _pendingOptimisticUpdates (revertUpdate u q)
       = _pendingOptimisticUpdates q)
  ∧ (_pendingOptimisticUpdates (revertAll q) = []
     ∧ _appliedOptimisticUpdates (revertAll q) = []
     ∧ _pendingBackupRebase (revertAll q) = true).
Proof.
  split; [|split].
  - intros Hpending. unfold revertUpdate. rewrite Hpending. simpl.
    by rewrite ou_has_delete.
  - intros Hpending Happlied.
    unfold revertUpdate. rewrite Hpending, Happlied. simpl.
    by rewrite ou_has_delete.
  - done.
Qed.

(** C10. [revertUpdate(u)] of an update that is neither pending nor applied
    returns the queue as it is. *)
Theorem revertUpdate_unknown (u : OptimisticUpdate) (q : PublishQueue) :
  ou_has (_pendingOptimisticUpdates q) u = false →
  ou_has (_appliedOptimisticUpdates q) u = false →
  revertUpdate u q = q.
Proof. intros Hp Ha. unfold revertUpdate. by rewrite Hp, Ha. Qed.

End QueueFacts.

(** ** Reasoning about the steps of [run()] *)

Section Outcomes.
Context `{C : Collaborators}.

Lemma wp_ret {A} (a : A) Q E w : Q a w → wp (mret a) Q E w.
Proof. done. Qed.

Lemma wp_throw {A} (Q : A → World → Prop) E w : E w → wp throw Q E w.
Proof. done. Qed.

Lemma wp_bind {A B} (m : M A) (k : A → M B) Q E w :
  wp m (λ a w', wp (k a) Q E w') E w → wp (m ≫= k) Q E w.
Proof.
  unfold wp, mbind, M_bind. by destruct (m w).
Qed.

Lemma wp_mono {A} (m : M A) (Q Q' : A → World → Prop) (E E' : World → Prop) w :
  wp m Q E w → (∀ a w', Q a w' → Q' a w') → (∀ w', E w' → E' w') →
  wp m Q' E' w.
Proof. unfold wp. destruct (m w); auto. Qed.

Lemma wp_get_world Q E w : Q w w → wp get_world Q E w.
Proof. done. Qed.

Lemma wp_modify_queue f Q E w :
  Q tt (with_queue (f (queue w)) w) → wp (modify_queue f) Q E w.
Proof. done. Qed.

Lemma wp_modify_store f Q E w :
  Q tt (with_store (f (store w)) w) → wp (modify_store f) Q E w.
Proof. done. Qed.

Lemma wp_returns {A} (m : M A) Q E w a w' :
  wp m Q E w → m w = Returns a w' → Q a w'.
Proof. unfold wp. intros H Heq. by rewrite Heq in H. Qed.

End Outcomes.

(** One step of symbolic execution of a monadic program. *)
Ltac wp_step :=
  lazymatch goal with
  | |- wp (mbind _ _) _ _ _ => apply wp_bind
  | |- wp (mret _) _ _ _ => apply wp_ret
  | |- wp throw _ _ _ => apply wp_throw
  | |- wp get_world _ _ _ => apply wp_get_world
  | |- wp (modify_queue _) _ _ _ => apply wp_modify_queue
  | |- wp (modify_store _) _ _ _ => apply wp_modify_store
  end;
  cbv beta.

(** *** What [run()] leaves alone before it reconciles the GC hold *)

Section Steps.
Context `{C : Collaborators}.

Lemma gc_frame_queue w0 w q :
  gc_frame w0 w → _gcHold q = _gcHold (queue w) → gc_frame w0 (with_queue q w).
Proof. intros [Hs Hh] Hq. split; [done|]. simpl. congruence. Qed.

Lemma gc_state_publish src st : gc_state (publish src st) = gc_state st.
Proof. unfold publish. by destruct (updateTargetFromSource _ _ _). Qed.

Lemma gc_frame_publish w0 w src :
  gc_frame w0 w → gc_frame w0 (with_store (publish src (store w)) w).
Proof.
  intros [Hs Hh]. split; [|done]. simpl. by rewrite gc_state_publish.
Qed.

Lemma gc_frame_report w0 w name :
  gc_frame w0 w → wp (report name) (λ _, gc_frame w0) (gc_frame w0) w.
Proof. done. Qed.

Lemma gc_frame_call_proxy w0 w act snk with_backup :
  gc_frame w0 w →
  wp (call_proxy act snk with_backup) (λ _, gc_frame w0) (gc_frame w0) w.
Proof.
  intros Hw. unfold wp, call_proxy.
  destruct (act _ _) as [after completion].
  apply gc_frame_queue; [done|].
  destruct with_backup; [|done]. by destruct (backup after).
Qed.

Lemma gc_frame_call_unguarded w0 w act snk with_backup :
  gc_frame w0 w →
  wp (call_unguarded act snk with_backup) (λ _, gc_frame w0) (gc_frame w0) w.
Proof.
  intros Hw. unfold call_unguarded. wp_step.
  eapply wp_mono; [by apply (gc_frame_call_proxy w0)| |done].
  intros [s c] w' Hw'. cbn [fst snd]. destruct c; by wp_step.
Qed.

Lemma gc_frame_applyWithGuard w0 w act snk with_backup name :
  gc_frame w0 w →
  wp (applyWithGuard act snk with_backup name)
     (λ _, gc_frame w0) (gc_frame w0) w.
Proof.
  intros Hw. unfold applyWithGuard. wp_step.
  eapply wp_mono; [by apply (gc_frame_call_proxy w0)| |done].
  intros [s c] w' Hw'. cbn [fst snd]. destruct c; [by wp_step|].
  wp_step. eapply wp_mono; [by apply (gc_frame_report w0)| |done].
  intros ? w'' Hw''. by wp_step.
Qed.

Lemma gc_frame_commit_entries w0 todo :
  ∀ done w, gc_frame w0 w →
  wp (commit_entries done todo) (λ _, gc_frame w0) (gc_frame w0) w.
Proof.
  induction todo as [|d todo IH]; intros done w Hw; simpl; [by wp_step|].
  destruct d as [payload|src].
  - wp_step. wp_step.
    destruct (_getSourceFromPayload _ _ _) as [snk completion].
    destruct completion.
    + wp_step. wp_step. apply IH. by apply gc_frame_publish.
    + wp_step. wp_step. wp_step. by apply gc_frame_queue.
  - wp_step. wp_step. apply IH. by apply gc_frame_publish.
Qed.

Lemma gc_frame__commitData w0 w :
  gc_frame w0 w → wp _commitData (λ _, gc_frame w0) (gc_frame w0) w.
Proof.
  intros Hw. unfold _commitData. wp_step. wp_step.
  destruct (_pendingData (queue w)) as [|d l]; [by wp_step|].
  wp_step. eapply wp_mono; [by apply (gc_frame_commit_entries w0)| |done].
  intros ? w' Hw'. wp_step. by apply gc_frame_queue.
Qed.

Lemma gc_frame_run_updaters w0 updaters :
  ∀ snk w, gc_frame w0 w →
  wp (run_updaters updaters snk) (λ _, gc_frame w0) (gc_frame w0) w.
Proof.
  induction updaters as [|u l IH]; intros snk w Hw; simpl; [by wp_step|].
  wp_step. eapply wp_mono; [by apply (gc_frame_applyWithGuard w0)| |done].
  intros snk' w' Hw'. by apply IH.
Qed.

Lemma gc_frame__commitUpdaters w0 w :
  gc_frame w0 w → wp _commitUpdaters (λ _, gc_frame w0) (gc_frame w0) w.
Proof.
  intros Hw. unfold _commitUpdaters. wp_step. wp_step.
  destruct (_pendingUpdaters (queue w)) as [|u l]; [by wp_step|].
  wp_step. eapply wp_mono; [by apply (gc_frame_run_updaters w0)| |done].
  intros snk w' Hw'. wp_step. wp_step. wp_step.
  apply gc_frame_queue; [|done]. by apply gc_frame_publish.
Qed.

Lemma gc_frame_run_optimisticUpdate w0 u snk w :
  gc_frame w0 w →
  wp (run_optimisticUpdate u snk) (λ _, gc_frame w0) (gc_frame w0) w.
Proof.
  intros Hw. unfold run_optimisticUpdate. wp_step. wp_step.
  destruct (ou_variant u) as [op response upd|upd|src payloads].
  - wp_step. eapply wp_mono; [by apply (gc_frame_call_unguarded w0)| |done].
    intros snk1 w1 Hw1. wp_step.
    assert (Hdata :
      wp (match response with
          | Some r =>
              match normalizeRelayPayload (operation_root op) r,
                    operation_fragment op with
              | Some src, Some sel => mret (Some (lookupSelector src sel op))
              | _, _ => throw
              end
          | None => mret None
          end) (λ _, gc_frame w0) (gc_frame w0) w1).
    { destruct response as [r|]; [|by wp_step].
      destruct (normalizeRelayPayload _ r); [|by wp_step].
      destruct (operation_fragment op); by wp_step. }
    eapply wp_mono; [exact Hdata| |done].
    intros selectorData w2 Hw2. cbn [fst snd].
    destruct upd; [by apply (gc_frame_applyWithGuard w0)|by wp_step].
  - by apply gc_frame_applyWithGuard.
  - by apply gc_frame_call_unguarded.
Qed.

Lemma gc_frame_rerun_applied w0 updates :
  ∀ snk w, gc_frame w0 w →
  wp (rerun_applied updates snk) (λ _, gc_frame w0) (gc_frame w0) w.
Proof.
  induction updates as [|u l IH]; intros snk w Hw; simpl; [by wp_step|].
  wp_step. eapply wp_mono; [by apply (gc_frame_run_optimisticUpdate w0)| |done].
  intros snk' w' Hw'. by apply IH.
Qed.

Lemma gc_frame_apply_pending w0 updates :
  ∀ snk w, gc_frame w0 w →
  wp (apply_pending updates snk) (λ _, gc_frame w0) (gc_frame w0) w.
Proof.
  induction updates as [|u l IH]; intros snk w Hw; simpl; [by wp_step|].
  wp_step. eapply wp_mono; [by apply (gc_frame_run_optimisticUpdate w0)| |done].
  intros snk' w' Hw'. cbn [fst snd]. wp_step. wp_step.
  apply IH. by apply gc_frame_queue.
Qed.

Lemma gc_frame__applyUpdates w0 w :
  gc_frame w0 w → wp _applyUpdates (λ _, gc_frame w0) (gc_frame w0) w.
Proof.
  intros Hw. unfold _applyUpdates. wp_step. wp_step.
  destruct (_ || _); [|by wp_step].
  wp_step.
  assert (Hrebase :
    wp (if _pendingBackupRebase (queue w)
           && nonempty (_appliedOptimisticUpdates (queue w))
        then rerun_applied (_appliedOptimisticUpdates (queue w))
                           RelayRecordSource.create
        else mret RelayRecordSource.create)
       (λ _, gc_frame w0) (gc_frame w0) w).
  { destruct (_ && _); [by apply (gc_frame_rerun_applied w0)|by wp_step]. }
  eapply wp_mono; [exact Hrebase| |done].
  intros snk w1 Hw1. cbn [fst snd]. wp_step.
  assert (Hnew :
    wp (if nonempty (_pendingOptimisticUpdates (queue w))
        then (s ← apply_pending (_pendingOptimisticUpdates (queue w)) snk;
              modify_queue (set_pendingOptimisticUpdates []);;
              mret s)
        else mret snk)
       (λ _, gc_frame w0) (gc_frame w0) w1).
  { clear Hrebase. destruct (nonempty _); [|by wp_step].
    wp_step. eapply wp_mono; [by apply (gc_frame_apply_pending w0)| |done].
    intros s w2 Hw2. cbn [fst snd]. wp_step. wp_step. wp_step.
    by apply gc_frame_queue. }
  eapply wp_mono; [exact Hnew| |done].
  intros snk' w2 Hw2. cbn [fst snd]. wp_step. by apply gc_frame_publish.
Qed.

Lemma gc_frame_publish_backup w0 w :
  gc_frame w0 w → wp publish_backup (λ _, gc_frame w0) (gc_frame w0) w.
Proof.
  intros Hw. unfold publish_backup. wp_step. wp_step.
  destruct (_ && _); [|by wp_step].
  wp_step. wp_step. wp_step.
  apply gc_frame_queue; [|done]. by apply gc_frame_publish.
Qed.

Lemma gc_frame_refl w : gc_frame w w.
Proof. done. Qed.

Lemma gc_state_notify st : gc_state (notify st).1.1 = gc_state st.
Proof. unfold notify. by destruct (notify_subscriptions _ _) as [[? ?] ?]. Qed.

Lemma wp_store_notify Q E w :
  Q (notify (store w)).1.2
    {| queue := queue w; store := (notify (store w)).1.1;
       reported := reported w;
       called := called w ++ (notify (store w)).2 |} →
  wp store_notify Q E w.
Proof.
  intros HQ. unfold wp, store_notify, mbind, M_bind, get_world.
  destruct (notify (store w)) as [[st owners] calls]. exact HQ.
Qed.

Lemma gc_state_holdGC_dispose st st' :
  gc_state st = gc_state st' →
  gc_state (holdGC_dispose st) = gc_state (holdGC_dispose st').
Proof.
  intros Heq. unfold gc_state in Heq.
  injection Heq as H1 H2 H3 H4.
  unfold holdGC_dispose, _scheduleGC, set_gc, gc_state. simpl.
  rewrite H1, H2, H3, H4.
  repeat (case_bool_decide; simpl); try done.
  all: destruct (_shouldScheduleGC st'); simpl; try done.
  all: repeat (case_bool_decide; simpl); try done; try lia.
  all: destruct (_hasScheduledGC st'); simpl; try done.
  all: congruence.
Qed.

Lemma gc_state_holdGC st st' :
  gc_state st = gc_state st' → gc_state (holdGC st) = gc_state (holdGC st').
Proof.
  intros Heq. unfold gc_state in Heq.
  injection Heq as H1 H2 H3 H4.
  unfold holdGC, set_gc, gc_state. simpl. congruence.
Qed.

(** The hold the queue has and the GC state of the store once [run()] has
    reconciled the hold, from the applied set at that point and the hold the
    queue had. *)
Lemma wp_reconcile_gcHold w0 w :
  gc_frame w0 w →
  wp (reconcile_gcHold;; store_notify)
     (λ _ w',
        (is_Some (_gcHold (queue w'))
         ↔ _appliedOptimisticUpdates (queue w') ≠ [])
        ∧ gc_state (store w')
          = gc_state
              (match nonempty (_appliedOptimisticUpdates (queue w')),
                     _gcHold (queue w0) with
               | true, None => holdGC (store w0)
               | false, Some _ => holdGC_dispose (store w0)
               | _, _ => store w0
               end))
     (λ _, True) w.
Proof.
  intros [Hgc Hhold]. unfold reconcile_gcHold. wp_step. wp_step. wp_step.
  pose proof gc_state_holdGC_dispose as Hdispose.
  pose proof gc_state_holdGC as Hhold_state.
  rewrite <- Hhold.
  destruct (_appliedOptimisticUpdates (queue w)) as [|u l] eqn:Happlied;
    cbn [nonempty]; destruct (_gcHold (queue w)) as [[]|] eqn:Hh;
    cbv beta iota.
  - wp_step. wp_step. wp_step. apply wp_store_notify. simpl.
    rewrite Happlied. simpl. split; [split; [by intros [? ?]|done]|].
    rewrite gc_state_notify. by apply Hdispose.
  - wp_step. apply wp_store_notify. simpl.
    rewrite Happlied, Hh. simpl. split; [split; [by intros [? ?]|done]|].
    by rewrite gc_state_notify.
  - wp_step. apply wp_store_notify. simpl.
    rewrite Happlied, Hh. simpl. split; [split; [done|by eauto]|].
    by rewrite gc_state_notify.
  - wp_step. wp_step. wp_step. apply wp_store_notify. simpl.
    rewrite Happlied. simpl. split; [split; [done|by eauto]|].
    rewrite gc_state_notify. by apply Hhold_state.
Qed.

(** C7. When [run()] returns, the queue holds a GC-hold disposable exactly
    when its applied set is not empty; as to the store, [run()] has taken a
    hold when updates are applied and the queue had no hold, has disposed the
    hold it had when none is applied, and has left the GC state alone
    otherwise. *)
Theorem run_reconciles_gcHold (w : World) (owners : list RequestDescriptor)
    (w' : World) :
  run w = Returns owners w' →
  (is_Some (_gcHold (queue w')) ↔ _appliedOptimisticUpdates (queue w') ≠ [])
  ∧ gc_state (store w')
    = gc_state
        (match nonempty (_appliedOptimisticUpdates (queue w')),
               _gcHold (queue w) with
         | true, None => holdGC (store w)
         | false, Some _ => holdGC_dispose (store w)
         | _, _ => store w
         end).
Proof.
  intros Hrun.
  assert (Hwp : wp run
    (λ _ w',
       (is_Some (_gcHold (queue w'))
        ↔ _appliedOptimisticUpdates (queue w') ≠ [])
       ∧ gc_state (store w')
         = gc_state
             (match nonempty (_appliedOptimisticUpdates (queue w')),
                    _gcHold (queue w) with
              | true, None => holdGC (store w)
              | false, Some _ => holdGC_dispose (store w)
              | _, _ => store w
              end))
    (λ _, True) w); [|exact (wp_returns _ _ _ _ _ _ Hwp Hrun)].
  unfold run.
  wp_step. eapply wp_mono;
    [apply (gc_frame_publish_backup w), gc_frame_refl| |done].
  intros ? w1 H1. wp_step. eapply wp_mono;
    [by apply (gc_frame__commitData w)| |done].
  intros ? w2 H2. wp_step. eapply wp_mono;
    [by apply (gc_frame__commitUpdaters w)| |done].
  intros ? w3 H3. wp_step. eapply wp_mono;
    [by apply (gc_frame__applyUpdates w)| |done].
  intros ? w4 H4. wp_step. wp_step.
  apply (wp_reconcile_gcHold w). by apply gc_frame_queue.
Qed.

End Steps.

(** ** The end of [run()] *)

Section RunEnd.
Context `{C : Collaborators}.

Lemma wp_total {A} (m : M A) (Q : A → World → Prop) w :
  wp m Q (λ _, False) w → ∃ a w', m w = Returns a w' ∧ Q a w'.
Proof. unfold wp. destruct (m w); [by eauto|done]. Qed.

Lemma wp_of_returns {A} (m : M A) (Q : A → World → Prop) E w a w' :
  m w = Returns a w' → Q a w' → wp m Q E w.
Proof. unfold wp. by intros ->. Qed.


Lemma holdGC_dispose_recordSource st :
  _recordSource (holdGC_dispose st) = _recordSource st.
Proof.
  unfold holdGC_dispose. case_bool_decide; [|done].
  destruct (_ && _); simpl; [|done].
  unfold _scheduleGC. simpl. case_bool_decide; [done|].
  by destruct (_hasScheduledGC st).
Qed.

Lemma notify_recordSource st :
  _recordSource (notify st).1.1 = _recordSource st.
Proof. unfold notify. by destruct (notify_subscriptions _ _) as [[? ?] ?]. Qed.


End RunEnd.

(** ** Errors of updaters *)

Section Guards.
Context `{C : Collaborators}.

(** A guarded call returns, whatever the updater does. *)
Lemma applyWithGuard_returns act snk with_backup name w :
  ∃ snk' w', applyWithGuard act snk with_backup name w = Returns snk' w'.
Proof.
  unfold applyWithGuard, call_proxy, mbind, M_bind.
  destruct (act _ _) as [after completion]. simpl.
  destruct completion; simpl; eauto.
Qed.

Lemma run_updaters_returns updaters :
  ∀ snk w, ∃ snk' w', run_updaters updaters snk w = Returns snk' w'.
Proof.
  induction updaters as [|u l IH]; intros snk w; simpl; [by eauto|].
  destruct (applyWithGuard_returns (su_call u) snk false
              "RelayPublishQueue:commitUpdaters" w) as (snk1 & w1 & H1).
  unfold mbind, M_bind. rewrite H1. apply IH.
Qed.

(** [_commitUpdaters()] returns: an updater queued by [commitUpdate] that
    raises does not leave it. *)
Lemma _commitUpdaters_returns w : ∃ w', _commitUpdaters w = Returns tt w'.
Proof.
  unfold _commitUpdaters, mbind, M_bind, get_world.
  destruct (_pendingUpdaters (queue w)) as [|u l]; [by eauto|].
  destruct (run_updaters_returns (u :: l) RelayRecordSource.create w)
    as (snk & w1 & H1).
  rewrite H1. simpl. eauto.
Qed.

(** A store updater of an optimistic update that raises does not leave the
    loops of [_applyUpdates] either. *)
Lemma run_optimisticUpdate_storeUpdater_returns u storeUpdater snk w :
  ou_variant u = StoreUpdaterUpdate storeUpdater →
  ∃ snk' w', run_optimisticUpdate u snk w = Returns snk' w'.
Proof.
  intros Hvariant.
  unfold run_optimisticUpdate, mbind, M_bind, get_world. rewrite Hvariant.
  apply applyWithGuard_returns.
Qed.

(** The updater of a payload is called as it is: when it raises,
    [_getSourceFromPayload] raises. *)
Lemma _getSourceFromPayload_updater_raises q st payload upd sel :
  fieldPayloads payload = None →
  updater payload = Some upd →
  operation_fragment (operation payload) = Some sel →
  (upd (Some (lookupSelector (source payload) sel (operation payload)))
       (getSource st) {| sink := source payload; backup := None |}).2
    = Raised →
  (_getSourceFromPayload q st payload).2 = Raised.
Proof.
  intros Hfields Hupd Hsel Hraised. unfold _getSourceFromPayload.
  rewrite Hfields, Hupd, Hsel.
  by destruct (upd _ _ _) as [after completion].
Qed.

(** [run()] raises whenever the first entry of [_pendingData] is a payload
    without field payloads whose updater raises. *)
Lemma run_raises_when_payload_updater_raises (w : World) (payload : Payload)
    (rest : list DataToCommit) (upd : SelectorStoreUpdater)
    (sel : ReaderSelector) :
  _pendingData (queue w) = DataPayload payload :: rest →
  fieldPayloads payload = None →
  updater payload = Some upd →
  operation_fragment (operation payload) = Some sel →
  (∀ selectorData base st, (upd selectorData base st).2 = Raised) →
  returns (run w) = false.
Proof.
  intros Hdata Hfields Hupd Hsel Hraises.
  assert (Hcommit : ∀ w1 : World,
            _pendingData (queue w1) = DataPayload payload :: rest →
            returns (_commitData w1) = false).
  { intros w1 Hdata1.
    unfold _commitData, mbind, M_bind, get_world. rewrite Hdata1.
    cbn [commit_entries]. unfold mbind, M_bind, get_world.
    pose proof (_getSourceFromPayload_updater_raises (queue w1) (store w1)
                  payload upd sel Hfields Hupd Hsel (Hraises _ _ _)) as Hr.
    destruct (_getSourceFromPayload _ _ _) as [snk completion].
    simpl in Hr. by rewrite Hr. }
  unfold run, mbind, M_bind.
  unfold publish_backup at 1. unfold mbind, M_bind, get_world.
  destruct (_ && _).
  - simpl. specialize (Hcommit
      (with_queue (set_backup RelayRecordSource.create (queue w))
         (with_store (publish (_backup (queue w)) (store w)) w)) Hdata).
    by destruct (_commitData _).
  - simpl. specialize (Hcommit w Hdata). by destruct (_commitData _).
Qed.

End Guards.

(** ** The reader at a missing root *)

(** C8. For every reader selector: when the root DataID is tombstoned in the
    source, the data of the snapshot is [null]; when it is absent, the data is
    [undefined] and [isMissingData] is true; in both cases the root DataID is
    the one record seen. *)
Theorem reader_missing_root (source : RecordSource) (sel : Selector)
    (own : string) :
  let snap := RelayReader_read source sel own in
  (source !! dataID sel = Some ENull →
     data snap = DNull
     ∧ dataID sel ∈ seenRecords snap
     ∧ seenRecords snap = {[dataID sel]})
  ∧ (source !! dataID sel = None →
     data snap = DUndefined
     ∧ isMissingData snap = true
     ∧ dataID sel ∈ seenRecords snap
     ∧ seenRecords snap = {[dataID sel]}).
Proof.
  intros snap. subst snap.
  unfold RelayReader_read, reader_read, example_environment, Reader_read,
    reader_traverse.
  split; intros Hroot; rewrite Hroot; simpl.
  - split; [done|]. split; set_solver.
  - split; [done|]. split; [done|]. split; set_solver.
Qed.

(** ** Examples *)

(** C6, at the example queue: the update is reverted while it is pending and
    once it is applied; then everything is reverted. *)
Lemma revert_updates_witness :
  _pendingOptimisticUpdates (revertUpdate optimistic_create (queue world_pending))
    = []
  ∧ _pendingBackupRebase (revertUpdate optimistic_create (queue world_pending))
    = false
  ∧ _pendingBackupRebase (revertUpdate optimistic_create (queue world_applied))
    = true
  ∧ _appliedOptimisticUpdates
      (revertUpdate optimistic_create (queue world_applied)) = []
  ∧ _pendingBackupRebase (revertAll (queue world_applied)) = true.
Proof.
  destruct (revert_updates optimistic_create (queue world_pending))
    as [Hpending _].
  destruct (revert_updates optimistic_create (queue world_applied))
    as (_ & Happlied & _ & _ & Hall).
  assert (Hp : ou_has (_pendingOptimisticUpdates (queue world_pending))
                      optimistic_create = true)
    by (vm_compute; reflexivity).
  assert (Hn : ou_has (_pendingOptimisticUpdates (queue world_applied))
                      optimistic_create = false)
    by (vm_compute; reflexivity).
  assert (Ha : ou_has (_appliedOptimisticUpdates (queue world_applied))
                      optimistic_create = true)
    by (vm_compute; reflexivity).
  destruct (Hpending Hp) as (H1 & _ & H2 & _).
  destruct (Happlied Hn Ha) as (H3 & H4 & _).
  split; [|split; [|split; [|split]]].
  - rewrite H1. reflexivity.
  - rewrite H2. reflexivity.
  - exact H3.
  - rewrite H4. reflexivity.
  - exact Hall.
Defined.

(** The queue in which [optimistic_create] is pending and applied: the
    [run()] that leads to it raises. *)
Lemma world_stuck_reached :
  returns (run (outcome_world (applyUpdate optimistic_source world_pending)))
  = false
  ∧ ou_has (_pendingOptimisticUpdates (queue world_stuck)) optimistic_create
    = true
  ∧ ou_has (_appliedOptimisticUpdates (queue world_stuck)) optimistic_create
    = true.
Proof. repeat split; vm_compute; reflexivity. Qed.

(** C6, counterexample. [optimistic_create] and then an update that
    publishes a source are applied; the [run()] applies the first, adds it to
    the applied set and raises in the second, before the pending set is
    cleared: the first update is pending and applied. [revertUpdate] of it
    takes it from the pending set only: the rebase flag stays unset and the
    update stays applied. *)
Lemma revertUpdate_pending_and_applied :
  ¬ (ou_has (_appliedOptimisticUpdates (queue world_stuck)) optimistic_create
     = true →
     _pendingBackupRebase (revertUpdate optimistic_create (queue world_stuck))
     = true
     ∧ ou_has (_appliedOptimisticUpdates
                 (revertUpdate optimistic_create (queue world_stuck)))
              optimistic_create = false).
Proof.
  intros Hclaim.
  assert (Ha : ou_has (_appliedOptimisticUpdates (queue world_stuck))
                      optimistic_create = true)
    by (vm_compute; reflexivity).
  destruct (Hclaim Ha) as [Hflag _].
  assert (Hf : _pendingBackupRebase
                 (revertUpdate optimistic_create (queue world_stuck)) = false)
    by (vm_compute; reflexivity).
  congruence.
Qed.

(** C10, at the example queue: reverting an update that was never applied. *)
Lemma revertUpdate_unknown_witness :
  revertUpdate optimistic_other (queue world_applied) = queue world_applied.
Proof.
  apply (revertUpdate_unknown optimistic_other (queue world_applied));
    vm_compute; reflexivity.
Defined.

Lemma run_world_pending :
  ∃ owners, run world_pending = Returns owners world_applied.
Proof.
  assert (Hreturns : returns (run world_pending) = true)
    by (vm_compute; reflexivity).
  unfold world_applied.
  destruct (run world_pending) as [owners w'|w']; [by exists owners|done].
Qed.

(** C7, at the example queue: the [run()] that applies the optimistic update
    returns; the queue then has a hold and the store counts it. *)
Lemma run_reconciles_gcHold_witness :
  (is_Some (_gcHold (queue world_applied))
   ↔ _appliedOptimisticUpdates (queue world_applied) ≠ [])
  ∧ gc_state (store world_applied)
    = gc_state (holdGC (store world_pending)).
Proof.
  destruct run_world_pending as [owners Hrun].
  exact (run_reconciles_gcHold world_pending owners world_applied Hrun).
Defined.

(** C8, at the sources of the reader tests: "4" deleted, and "4" unfetched. *)
Lemma reader_missing_root_witness :
  data (RelayReader_read deleted_source profile_selector "owner"%string)
    = DNull
  ∧ data (RelayReader_read ∅ profile_selector "owner"%string) = DUndefined
  ∧ isMissingData (RelayReader_read ∅ profile_selector "owner"%string) = true
  ∧ seenRecords (RelayReader_read ∅ profile_selector "owner"%string)
    = {[ "4"%string ]}.
Proof.
  destruct (reader_missing_root deleted_source profile_selector "owner")
    as [Hdeleted _].
  destruct (reader_missing_root ∅ profile_selector "owner")
    as [_ Habsent].
  destruct (Hdeleted eq_refl) as (H1 & _ & _).
  destruct (Habsent eq_refl) as (H2 & H3 & _ & H4).
  exact (conj H1 (conj H2 (conj H3 H4))).
Defined.

(** C2, counterexample. The best friend of "1" changes from "2" to "3", who
    has the same name: the subscription is read again, its data is the same
    reference, its callback is not called and no owner is returned, and yet
    the snapshot it holds is the new one, which has seen "3". *)
Lemma notify_stores_without_firing :
  let st := publish new_friend_source friends_store in
  ¬ (_subscriptions (notify st).1.1 ≠ _subscriptions st →
     (notify st).2 ≠ []).
Proof.
  intros st Hiff.
  assert (Hcalls : length (notify st).2 = 0%nat) by (vm_compute; reflexivity).
  apply Hiff; [|by apply nil_length_inv].
  intros Hsame. apply (f_equal (first_has_seen "3")) in Hsame.
  vm_compute in Hsame. discriminate.
Qed.

(** C2, at a source that touches only "3", which the snapshot has not seen:
    the subscription is left as it is. *)
Lemma notify_spec_witness :
  _updateSubscription (publish claire_source friends_store)
                      friends_subscription
  = (friends_subscription, None, []).
Proof.
  destruct (notify_spec friends_store) as (_ & _ & _ & _ & _ & Hpublish).
  apply Hpublish. intros id Hid.
  assert (Hseen : seenRecords (snapshot friends_subscription)
                  = {[ "1"%string; "2"%string ]}).
  { compute_done. }
  rewrite Hseen in Hid.
  split; [set_solver|].
  apply elem_of_union in Hid as [Hid|Hid];
    apply elem_of_singleton in Hid; subst id; reflexivity.
Defined.




(** C5, at its failing input. A payload is committed with an updater that
    raises, and a source after it. [run()] raises: nothing is reported, the
    canonical source is as before, both entries are still pending and the
    rebase flag is still set. *)
Theorem run_raises_with_payload_updater :
  returns (run world_payload) = false
  ∧ reported (outcome_world (run world_payload)) = []
  ∧ _recordSource (store (outcome_world (run world_payload)))
    = example_source
  ∧ length (_pendingData (queue (outcome_world (run world_payload))))
    = 2%nat
  ∧ _pendingBackupRebase (queue (outcome_world (run world_payload))) = true.
Proof.
  split; [vm_compute; reflexivity|].
  split; [vm_compute; reflexivity|].
  split; [compute_done|].
  split; vm_compute; reflexivity.
Qed.

(** The same updater committed by [commitUpdate]: [run()] returns and the
    error is reported. *)
Lemma run_returns_with_store_updater :
  returns (run world_updater) = true
  ∧ reported (outcome_world (run world_updater))
    = ["RelayPublishQueue:commitUpdaters"%string].
Proof. split; vm_compute; reflexivity. Qed.

Lemma example_calls_return :
  queue_calls example_calls
              (fresh_world None (RelayModernStore_new example_source))
  = Returns tt world_applied.
Proof.
  change (fresh_world None (RelayModernStore_new example_source))
    with example_world.
  assert (Happly : returns (applyUpdate optimistic_create example_world)
                   = true) by (vm_compute; reflexivity).
  destruct run_world_pending as [owners Hrun].
  unfold example_calls, queue_calls, queue_call, mbind, M_bind.
  unfold world_pending in Hrun.
  destruct (applyUpdate optimistic_create example_world) as [[] w1|w1];
    [|done].
  simpl in Hrun. by rewrite Hrun.
Qed.

(** * More properties of the store *)

Section MoreStore.
Context `{C : Collaborators}.

Lemma publish_other_fields source st :
  _subscriptions (publish source st) = _subscriptions st
  ∧ _roots (publish source st) = _roots st
  ∧ _index (publish source st) = _index st
  ∧ gc_state (publish source st) = gc_state st.
Proof. unfold publish. by destruct (updateTargetFromSource _ _ _). Qed.

Lemma publish_lookup source st j :
  _recordSource (publish source st) !! j
  = match source !! j with
    | Some e => entry_after (_recordSource st !! j) e
    | None => _recordSource st !! j
    end.
Proof. by rewrite publish_recordSource, updateTargetFromSource_lookup. Qed.

Lemma publish_updated source st j :
  j ∈ _updatedRecordIDs (publish source st)
  ↔ j ∈ _updatedRecordIDs st
    ∨ ∃ e, source !! j = Some e
           ∧ entry_marked (_recordSource st !! j) e = true.
Proof.
  rewrite publish_updatedRecordIDs, elem_of_union. unfold publish_records.
  rewrite updateTargetFromSource_updated. set_solver.
Qed.

(** X1. [publish(source)] touches only the DataIDs of the source: at any
    other DataID the canonical source is as before and the DataID is recorded
    as updated exactly when it was before. No DataID recorded before is
    forgotten, and the subscriptions, the roots and the GC state are as
    before. *)
Theorem publish_footprint (source : RecordSource) (st : Store) (j : string) :
  source !! j = None →
  _recordSource (publish source st) !! j = _recordSource st !! j
  ∧ (j ∈ _updatedRecordIDs (publish source st) ↔ j ∈ _updatedRecordIDs st)
  ∧ _updatedRecordIDs st ⊆ _updatedRecordIDs (publish source st)
  ∧ _subscriptions (publish source st) = _subscriptions st
  ∧ _roots (publish source st) = _roots st
  ∧ gc_state (publish source st) = gc_state st.
Proof.
  intros Hnone. destruct (publish_other_fields source st) as (Hs & Hr & _ & Hg).
  split; [by rewrite publish_lookup, Hnone|].
  split; [rewrite publish_updated, Hnone; naive_solver|].
  split; [|done].
  intros i Hi. apply publish_updated. by left.
Qed.

(** X2. What [publish(source)] does at a DataID of the source. The unpublish
    sentinel removes the DataID and records it. [null] leaves a tombstone,
    recorded unless the canonical source already held a tombstone there. A
    record published where the canonical source holds no record (nothing, or
    a tombstone) is stored as it is and recorded. *)
Theorem publish_entry (source : RecordSource) (st : Store) (j : string) :
  (source !! j = Some EUnpublish →
     _recordSource (publish source st) !! j = None
     ∧ j ∈ _updatedRecordIDs (publish source st))
  ∧ (source !! j = Some ENull →
     _recordSource (publish source st) !! j = Some ENull
     ∧ (j ∈ _updatedRecordIDs (publish source st)
        ↔ j ∈ _updatedRecordIDs st ∨ _recordSource st !! j ≠ Some ENull))
  ∧ (∀ record, source !! j = Some (ERecord record) →
     truthy (_recordSource st !! j) = None →
     _recordSource (publish source st) !! j = Some (ERecord record)
     ∧ j ∈ _updatedRecordIDs (publish source st)).
Proof.
  split; [|split].
  - intros Hj. rewrite publish_lookup, publish_updated, Hj.
    split; [done|]. right. by exists EUnpublish.
  - intros Hj. rewrite publish_lookup, publish_updated, Hj.
    split; [done|]. split.
    + intros [H|(e & He & Hm)]; [by left|right].
      simplify_eq. simpl in Hm. by case_bool_decide.
    + intros [H|H]; [by left|right]. exists ENull. split; [done|].
      simpl. by rewrite bool_decide_eq_false_2.
  - intros record Hj Htarget. rewrite publish_lookup, publish_updated, Hj.
    simpl. rewrite Htarget. split; [done|]. right. exists (ERecord record).
    split; [done|]. simpl. by rewrite Htarget.
Qed.

Lemma entry_after_no_sentinel t e :
  t ≠ Some EUnpublish → entry_after t e ≠ Some EUnpublish.
Proof.
  intros Ht. destruct e as [s| |]; simpl; [|done|done].
  destruct (truthy t); [|done]. by case_decide.
Qed.

Lemma publish_no_sentinel source st :
  no_sentinel (_recordSource st) →
  no_sentinel (_recordSource (publish source st)).
Proof.
  intros Hst j. rewrite publish_lookup.
  destruct (source !! j); [by apply entry_after_no_sentinel|done].
Qed.

Lemma _scheduleGC_recordSource st :
  _recordSource (_scheduleGC st) = _recordSource st.
Proof.
  unfold _scheduleGC. case_bool_decide; [done|].
  by destruct (_hasScheduledGC st).
Qed.

Lemma gc_lookup st j :
  _recordSource (__gc st) !! j
  = if bool_decide (j ∈ mark_roots st) then _recordSource st !! j else None.
Proof.
  unfold __gc. case_bool_decide as Hsize; simpl.
  - apply size_empty_inv in Hsize. apply leibniz_equiv in Hsize.
    rewrite Hsize. unfold RelayRecordSource.clear.
    rewrite lookup_empty. by rewrite bool_decide_eq_false_2 by set_solver.
  - apply evict_unreferenced_lookup.
Qed.

Lemma store_call_no_sentinel st c :
  no_sentinel (_recordSource st) → no_sentinel (_recordSource (store_call st c)).
Proof.
  intros Hst. destruct c; simpl; try done.
  - by rewrite holdGC_dispose_recordSource.
  - unfold retain_dispose. by rewrite _scheduleGC_recordSource.
  - by apply publish_no_sentinel.
  - by rewrite notify_recordSource.
  - unfold run_scheduled_thunk. destruct (scheduledThunks st); [done|].
    simpl. intros j. rewrite gc_lookup. by case_bool_decide.
Qed.

(** X3. The canonical source never holds the unpublish sentinel: when the
    source the store is built on has none, there is none after any sequence
    of calls on the store, whatever the sources published, the sentinel
    included. *)
Theorem store_never_holds_sentinel (source : RecordSource)
    (calls : list StoreCall) :
  no_sentinel source →
  no_sentinel (_recordSource (store_calls (RelayModernStore_new source) calls)).
Proof.
  intros Hsource. unfold store_calls.
  assert (H0 : no_sentinel (_recordSource (RelayModernStore_new source)))
    by done.
  revert H0. generalize (RelayModernStore_new source).
  induction calls as [|c calls IH]; intros st Hst; simpl; [done|].
  apply IH. by apply store_call_no_sentinel.
Qed.

Lemma hasOverlappingIDs_empty (snap : Snapshot) :
  hasOverlappingIDs snap ∅ = false.
Proof.
  destruct (hasOverlappingIDs snap ∅) eqn:H; [|done].
  apply hasOverlappingIDs_spec in H as (id & _ & Hid). set_solver.
Qed.

(** X4. A second [notify()] right after a [notify()] does nothing: the store
    is as the first left it, no callback is called and no owner is
    returned. *)
Theorem notify_twice (st : Store) :
  notify (notify st).1.1 = ((notify st).1.1, [], []).
Proof.
  unfold notify at 1. rewrite notify_subscriptions_spec.
  assert (Hupdated : _updatedRecordIDs (notify st).1.1 = ∅).
  { unfold notify. by destruct (notify_subscriptions _ _) as [[? ?] ?]. }
  assert (Hfires : ∀ sub : Subscription,
            fires (notify st).1.1 (snapshot sub) = false).
  { intros sub. unfold fires.
    by rewrite Hupdated, hasOverlappingIDs_empty. }
  rewrite Hupdated.
  assert (Hmap : ∀ subs : list Subscription,
    map (λ sub,
           if hasOverlappingIDs (snapshot sub) ∅
           then {| callback := callback sub;
                   snapshot := reread (notify st).1.1 (snapshot sub) |}
           else sub) subs = subs).
  { induction subs as [|sub subs IH]; [done|]. simpl.
    by rewrite hasOverlappingIDs_empty, IH. }
  assert (Hfilter : ∀ subs : list Subscription,
    filter (λ sub, fires (notify st).1.1 (snapshot sub) = true) subs = []).
  { induction subs as [|sub subs IH]; [done|].
    rewrite filter_cons, decide_False; [done|]. by rewrite Hfires. }
  assert (Hflat : ∀ subs : list Subscription,
    flat_map (λ sub,
                if fires (notify st).1.1 (snapshot sub)
                then [(callback sub, reread (notify st).1.1 (snapshot sub))]
                else []) subs = []).
  { induction subs as [|sub subs IH]; [done|]. simpl.
    by rewrite Hfires, IH. }
  rewrite Hmap, Hfilter, Hflat. simpl.
  f_equal. f_equal.
  unfold notify. by destruct (notify_subscriptions _ _) as [[? ?] ?].
Qed.

End MoreStore.

(** * More properties of retaining and of the GC *)

Section MoreGC.
Context `{C : Collaborators}.

Lemma _scheduleGC_roots st :
  _roots (_scheduleGC st) = _roots st ∧ _index (_scheduleGC st) = _index st.
Proof.
  unfold _scheduleGC. case_bool_decide; [done|].
  by destruct (_hasScheduledGC st).
Qed.

Lemma holdGC_dispose_roots st :
  _roots (holdGC_dispose st) = _roots st
  ∧ _index (holdGC_dispose st) = _index st.
Proof.
  unfold holdGC_dispose. case_bool_decide; [|done].
  destruct (_ && _); [|done]. simpl.
  apply (_scheduleGC_roots (set_gc _ _ _ _ st)).
Qed.

Lemma notify_roots st :
  _roots (notify st).1.1 = _roots st ∧ _index (notify st).1.1 = _index st.
Proof. unfold notify. by destruct (notify_subscriptions _ _) as [[? ?] ?]. Qed.

Lemma gc_roots st :
  _roots (__gc st) = _roots st ∧ _index (__gc st) = _index st.
Proof. unfold __gc. by case_bool_decide. Qed.

Lemma gc_state_gc st : gc_state (__gc st) = gc_state st.
Proof. unfold __gc. by case_bool_decide. Qed.

Lemma gc_recordSource_roots st st' :
  _recordSource st' = _recordSource st → _roots st' = _roots st →
  _recordSource (__gc st') = _recordSource (__gc st).
Proof.
  intros Hsource Hroots. unfold __gc, mark_roots. rewrite Hsource, Hroots.
  by case_bool_decide.
Qed.

Lemma roots_set_fresh index sel (roots : list (nat * NormalizationSelector)) :
  Forall (λ r, r.1 ≠ index) roots →
  roots_set index sel roots = roots ++ [(index, sel)].
Proof.
  induction 1 as [|r roots Hr _ IH]; [done|]. simpl.
  by rewrite decide_False, IH.
Qed.

Lemma filter_fresh index sel (roots : list (nat * NormalizationSelector)) :
  Forall (λ r, r.1 ≠ index) roots →
  filter (λ r, r.1 ≠ index) (roots ++ [(index, sel)]) = roots.
Proof.
  intros Hroots. rewrite filter_app, filter_cons, decide_False by (simpl; auto).
  rewrite filter_nil, app_nil_r.
  induction Hroots as [|r roots Hr _ IH]; [done|].
  by rewrite filter_cons, decide_True, IH.
Qed.

Lemma store_call_roots_wf st c : roots_wf st → roots_wf (store_call st c).
Proof.
  unfold roots_wf. intros Hst.
  destruct c as [| |sel|index|source| |]; simpl; try done.
  - by destruct (holdGC_dispose_roots st) as [-> ->].
  - apply Forall_forall. intros r Hr. simpl.
    assert (Hfresh : Forall (λ r, r.1 ≠ _index st) (_roots st)).
    { eapply Forall_impl; [exact Hst|]. simpl. lia. }
    rewrite (roots_set_fresh _ _ _ Hfresh) in Hr.
    apply elem_of_app in Hr as [Hr|Hr].
    + rewrite Forall_forall in Hst. specialize (Hst r Hr). lia.
    + apply list_elem_of_singleton in Hr as ->. simpl. lia.
  - unfold retain_dispose.
    match goal with |- context [_scheduleGC ?s] =>
      destruct (_scheduleGC_roots s) as [-> ->] end.
    simpl. apply Forall_forall. intros r Hr.
    apply list_elem_of_filter in Hr as [_ Hr].
    rewrite Forall_forall in Hst. by apply Hst.
  - by destruct (publish_other_fields source st) as (_ & -> & -> & _).
  - by destruct (notify_roots st) as [-> ->].
  - unfold run_scheduled_thunk. destruct (scheduledThunks st); [done|].
    simpl. by destruct (gc_roots st) as [-> ->].
Qed.

Lemma store_calls_roots_wf source calls :
  roots_wf (store_calls (RelayModernStore_new source) calls).
Proof.
  unfold store_calls.
  assert (H0 : roots_wf (RelayModernStore_new source)) by constructor.
  revert H0. generalize (RelayModernStore_new source).
  induction calls as [|c calls IH]; intros st Hst; simpl; [done|].
  apply IH. by apply store_call_roots_wf.
Qed.

(** X5. After any sequence of calls on a store, [retain(selector)] uses an
    index that no root has, adds the selector as the last root and leaves the
    other roots as they are; disposing of it leaves the roots as they were
    before the [retain]. *)
Theorem retain_dispose_round_trip (source : RecordSource)
    (calls : list StoreCall) (sel : NormalizationSelector) :
  let st := store_calls (RelayModernStore_new source) calls in
  let r := retain sel st in
(r.1 ∉ (_roots st).*1)
  ∧ _roots r.2 = _roots st ++ [(r.1, sel)]
  ∧ _roots (retain_dispose r.1 r.2) = _roots st.
Proof.
  intros st r.
  assert (Hfresh : Forall (λ r, r.1 ≠ _index st) (_roots st)).
  { eapply Forall_impl; [exact (store_calls_roots_wf source calls)|].
    simpl. fold st. lia. }
  assert (Hset : _roots r.2 = _roots st ++ [(r.1, sel)]).
  { simpl. by apply roots_set_fresh. }
  split; [|split; [done|]].
  - simpl. intros Hin. apply list_elem_of_fmap in Hin as (x & Hx & Hin).
    rewrite Forall_forall in Hfresh. by apply (Hfresh x Hin).
  - unfold retain_dispose.
    match goal with |- context [_scheduleGC ?s] =>
      destruct (_scheduleGC_roots s) as [-> _] end.
    cbn [_roots]. rewrite Hset. by apply filter_fresh.
Qed.

Lemma _scheduleGC_coalesced st : gc_coalesced st → gc_coalesced (_scheduleGC st).
Proof.
  unfold gc_coalesced, _scheduleGC. intros [Hle Hiff].
  case_bool_decide; [done|].
  destruct (_hasScheduledGC st) eqn:Hhas; [by rewrite Hhas|].
  simpl. assert (scheduledThunks st ≠ 1%nat) by (intros H1; by apply Hiff in H1).
  split; [lia|]. split; [lia|done].
Qed.

Lemma store_call_coalesced st c :
  gc_coalesced st → gc_coalesced (store_call st c).
Proof.
  intros Hst. destruct c as [| |sel|index|source| |]; simpl; try done.
  - unfold holdGC_dispose. case_bool_decide; [|done].
    destruct (_ && _); [|done].
    by apply (_scheduleGC_coalesced (set_gc _ _ _ _ st)).
  - unfold retain_dispose. by apply _scheduleGC_coalesced.
  - unfold gc_coalesced.
    destruct (publish_other_fields source st) as (_ & _ & _ & Hg).
    unfold gc_state in Hg. injection Hg as Hg1 Hg2 Hg3 Hg4.
    by rewrite Hg1, Hg4.
  - unfold gc_coalesced. pose proof (gc_state_notify st) as Hg.
    unfold gc_state in Hg. injection Hg as Hg1 Hg2 Hg3 Hg4.
    by rewrite Hg1, Hg4.
  - unfold run_scheduled_thunk.
    destruct (scheduledThunks st) as [|n] eqn:Hthunks; [done|].
    destruct Hst as [Hle _]. unfold gc_coalesced. simpl.
    split; [lia|]. split; [done|lia].
Qed.

(** X6. Scheduling of the GC is coalesced: after any sequence of calls on a
    store, the scheduler running its thunks included, at most one GC thunk is
    outstanding, and [_hasScheduledGC] is true exactly when one is. *)
Theorem gc_scheduling_coalesced (source : RecordSource)
    (calls : list StoreCall) :
  gc_coalesced (store_calls (RelayModernStore_new source) calls).
Proof.
  unfold store_calls.
  assert (H0 : gc_coalesced (RelayModernStore_new source)).
  { split; [simpl; lia|]. by split. }
  revert H0. generalize (RelayModernStore_new source).
  induction calls as [|c calls IH]; intros st Hst; simpl; [done|].
  apply IH. by apply store_call_coalesced.
Qed.

(** X7. A GC asked for while the GC is held is deferred, not lost: with no
    hold and no GC scheduled, after [holdGC()] the dispose of a retained root
    schedules nothing and sets [_shouldScheduleGC]; the dispose of the hold
    then schedules one GC and resets [_shouldScheduleGC]. *)
Theorem gc_deferred_while_held (st : Store) (index : nat) :
  _gcHoldCounter st = 0 →
  _hasScheduledGC st = false →
  let held := retain_dispose index (holdGC st) in
  let released := holdGC_dispose held in
  scheduledThunks held = scheduledThunks st
  ∧ _hasScheduledGC held = false
  ∧ _shouldScheduleGC held = true
  ∧ scheduledThunks released = S (scheduledThunks st)
  ∧ _hasScheduledGC released = true
  ∧ _shouldScheduleGC released = false
  ∧ _gcHoldCounter released = 0.
Proof.
  intros Hcounter Hhas. cbv zeta.
  assert (Hheld : gc_state (retain_dispose index (holdGC st))
                  = (false, true, 1, scheduledThunks st)).
  { unfold retain_dispose, _scheduleGC, gc_state. simpl.
    rewrite Hcounter, Hhas. by rewrite bool_decide_eq_true_2 by lia. }
  unfold gc_state in Hheld. injection Hheld as H1 H2 H3 H4.
  rewrite H1, H2, H4. split; [done|]. split; [done|]. split; [done|].
  unfold holdGC_dispose. rewrite H3.
  rewrite bool_decide_eq_true_2 by lia. cbn [_gcHoldCounter set_gc].
  rewrite bool_decide_eq_true_2 by lia. cbn [_shouldScheduleGC set_gc andb].
  rewrite H2. unfold _scheduleGC. cbn [_gcHoldCounter _hasScheduledGC set_gc].
  rewrite bool_decide_eq_false_2 by lia. rewrite H1. simpl. by rewrite H4.
Qed.

(** X8. A hold does not stop a GC that is already scheduled: with no hold and
    no GC scheduled, when the dispose of a retained root has scheduled a GC
    and [holdGC()] is called before the scheduler runs it, the scheduler still
    runs [__gc], on the roots that are left, while the hold counter is 1. *)
Theorem scheduled_gc_runs_while_held (st : Store) (index : nat) :
  _gcHoldCounter st = 0 →
  _hasScheduledGC st = false →
  scheduledThunks st = 0%nat →
  let st' :=
    store_calls st [CallRetainDispose index; CallHoldGC; SchedulerRuns] in
  _gcHoldCounter st' = 1
  ∧ _hasScheduledGC st' = false
  ∧ scheduledThunks st' = 0%nat
  ∧ _roots st' = filter (λ r, r.1 ≠ index) (_roots st)
  ∧ _recordSource st' = _recordSource (__gc (retain_dispose index st)).
Proof.
  intros Hcounter Hhas Hthunks. cbv zeta. unfold store_calls. simpl.
  assert (Hdisposed : retain_dispose index st
    = {| _hasScheduledGC := true; _index := _index st;
         _recordSource := _recordSource st;
         _roots := filter (λ r, r.1 ≠ index) (_roots st);
         _subscriptions := _subscriptions st;
         _updatedRecordIDs := _updatedRecordIDs st;
         _gcHoldCounter := 0;
         _shouldScheduleGC := _shouldScheduleGC st;
         scheduledThunks := 1 |}).
  { unfold retain_dispose, _scheduleGC. simpl. rewrite Hcounter, Hhas, Hthunks.
    by rewrite bool_decide_eq_false_2 by lia. }
  rewrite Hdisposed. clear Hdisposed.
  match goal with |- context [run_scheduled_thunk ?s] => set (held := s) end.
  assert (Hheld : scheduledThunks held = 1%nat) by done.
  unfold run_scheduled_thunk. rewrite Hheld.
  pose proof (gc_state_gc held) as Hg.
  destruct (gc_roots held) as [Hr _].
  unfold gc_state in Hg. injection Hg as Hg1 Hg2 Hg3 Hg4.
  cbn [_gcHoldCounter _hasScheduledGC scheduledThunks _roots _recordSource
       set_gc].
  rewrite Hg3, Hr. split; [done|]. split; [done|]. split; [done|].
  split; [done|]. by apply gc_recordSource_roots.
Qed.

End MoreGC.

(** * More properties of the queue *)

Section MoreQueue.
Context `{C : Collaborators}.

Lemma ou_has_app l1 l2 (u : OptimisticUpdate) :
  ou_has (l1 ++ l2) u = ou_has l1 u || ou_has l2 u.
Proof. unfold ou_has. by rewrite existsb_app. Qed.

Lemma ou_has_self (u : OptimisticUpdate) : ou_has [u] u = true.
Proof. unfold ou_has. simpl. by rewrite bool_decide_eq_true_2. Qed.

Lemma ou_delete_fresh l (u : OptimisticUpdate) :
  ou_has l u = false → ou_delete u (l ++ [u]) = l.
Proof.
  unfold ou_has, ou_delete. intros Hl.
  rewrite filter_app, filter_cons, decide_False by auto.
  rewrite filter_nil, app_nil_r.
  induction l as [|v l IH]; [done|]. simpl in Hl.
  apply orb_false_iff in Hl as [Hv Hl].
  rewrite filter_cons, decide_True, IH; [done|done|].
  by apply bool_decide_eq_false in Hv.
Qed.

Lemma applyUpdate_spec (u : OptimisticUpdate) (w : World) :
  applyUpdate u w
  = if negb (ou_has (_appliedOptimisticUpdates (queue w)) u)
       && negb (ou_has (_pendingOptimisticUpdates (queue w)) u)
    then Returns tt
           (with_queue
              (set_pendingOptimisticUpdates
                 (_pendingOptimisticUpdates (queue w) ++ [u]) (queue w)) w)
    else Throws w.
Proof.
  unfold applyUpdate, mbind, M_bind, get_world.
  destruct (ou_has (_appliedOptimisticUpdates (queue w)) u); [done|].
  destruct (ou_has (_pendingOptimisticUpdates (queue w)) u) eqn:Hp; [done|].
  simpl. unfold modify_queue, ou_add. by rewrite Hp.
Qed.

(** X9. [applyUpdate] refuses an update it already has: it returns exactly
    when the update is neither applied nor pending, and then only adds the
    update as the last pending one; otherwise it raises and changes nothing.
    Once it has returned, a second [applyUpdate] of the same update raises. *)
Theorem applyUpdate_rejects_duplicates (u : OptimisticUpdate) (w : World) :
  (ou_has (_appliedOptimisticUpdates (queue w)) u = false →
   ou_has (_pendingOptimisticUpdates (queue w)) u = false →
   ∃ w1, applyUpdate u w = Returns tt w1
         ∧ _pendingOptimisticUpdates (queue w1)
           = _pendingOptimisticUpdates (queue w) ++ [u]
         ∧ _appliedOptimisticUpdates (queue w1)
           = _appliedOptimisticUpdates (queue w)
         ∧ _backup (queue w1) = _backup (queue w)
         ∧ store w1 = store w
         ∧ applyUpdate u w1 = Throws w1)
  ∧ (ou_has (_appliedOptimisticUpdates (queue w)) u
     || ou_has (_pendingOptimisticUpdates (queue w)) u = true →
     applyUpdate u w = Throws w).
Proof.
  split.
  - intros Ha Hp. rewrite applyUpdate_spec, Ha, Hp. simpl.
    eexists. split; [done|]. simpl. repeat (split; [done|]).
    rewrite applyUpdate_spec. simpl.
    by rewrite ou_has_app, ou_has_self, orb_true_r, andb_false_r.
  - intros Hhas. rewrite applyUpdate_spec.
    destruct (ou_has (_appliedOptimisticUpdates (queue w)) u); [done|].
    simpl in Hhas. by rewrite Hhas.
Qed.

(** X10. An update that [applyUpdate] accepted and that is reverted before a
    [run()] leaves no trace: [revertUpdate] gives back the world as it was
    before the [applyUpdate], so the update is never run. *)
Theorem apply_then_revert (u : OptimisticUpdate) (w w1 : World) :
  applyUpdate u w = Returns tt w1 →
  modify_queue (revertUpdate u) w1 = Returns tt w.
Proof.
  rewrite applyUpdate_spec.
  destruct (ou_has (_appliedOptimisticUpdates (queue w)) u) eqn:Ha; [done|].
  destruct (ou_has (_pendingOptimisticUpdates (queue w)) u) eqn:Hp; [done|].
  simpl. intros [= <-]. unfold modify_queue, revertUpdate. simpl.
  rewrite ou_has_app, ou_has_self, orb_true_r, (ou_delete_fresh _ _ Hp).
  f_equal. destruct w as [q st r c]. destruct q. done.
Qed.

Lemma wp_report name Q E w :
  Q tt {| queue := queue w; store := store w;
          reported := reported w ++ [name]; called := called w |} →
  wp (report name) Q E w.
Proof. done. Qed.

(** What the steps of [run()] do to the work of the queue. *)
Lemma work_call_proxy act snk with_backup w :
  wp (call_proxy act snk with_backup)
     (λ _ w', queued_work (queue w') = queued_work (queue w)
              ∧ store w' = store w)
     (λ _, False) w.
Proof.
  unfold wp, call_proxy. destruct (act _ _) as [after completion].
  destruct with_backup; [|done]. by destruct (backup after).
Qed.

Lemma work_applyWithGuard act snk with_backup name w :
  wp (applyWithGuard act snk with_backup name)
     (λ _ w', queued_work (queue w') = queued_work (queue w)
              ∧ store w' = store w)
     (λ _, False) w.
Proof.
  unfold applyWithGuard. wp_step.
  eapply wp_mono; [apply work_call_proxy| |done].
  intros [s c] w' Hw'. cbn [fst snd]. destruct c; [by wp_step|].
  wp_step. apply wp_report. by wp_step.
Qed.

Lemma work_call_unguarded act snk with_backup w :
  wp (call_unguarded act snk with_backup)
     (λ _ w', queued_work (queue w') = queued_work (queue w)
              ∧ store w' = store w)
     (λ _, True) w.
Proof.
  unfold call_unguarded. wp_step.
  eapply wp_mono; [apply work_call_proxy| |done].
  intros [s c] w' Hw'. cbn [fst snd]. destruct c; by wp_step.
Qed.

Lemma work_run_optimisticUpdate u snk w :
  wp (run_optimisticUpdate u snk)
     (λ _ w', queued_work (queue w') = queued_work (queue w)
              ∧ store w' = store w)
     (λ _, True) w.
Proof.
  unfold run_optimisticUpdate. wp_step. wp_step.
  destruct (ou_variant u) as [op response upd|upd|src payloads].
  - wp_step. eapply wp_mono; [apply work_call_unguarded| |done].
    intros snk1 w1 Hw1. wp_step.
    assert (Hdata :
      wp (match response with
          | Some r =>
              match normalizeRelayPayload (operation_root op) r,
                    operation_fragment op with
              | Some src, Some sel => mret (Some (lookupSelector src sel op))
              | _, _ => throw
              end
          | None => mret None
          end)
         (λ _ w', queued_work (queue w') = queued_work (queue w)
                  ∧ store w' = store w)
         (λ _, True) w1).
    { destruct response as [r|]; [|by wp_step].
      destruct (normalizeRelayPayload _ r); [|by wp_step].
      destruct (operation_fragment op); by wp_step. }
    eapply wp_mono; [exact Hdata| |done].
    intros selectorData w2 [Hq2 Hs2]. cbn [fst snd].
    destruct upd; [|by wp_step].
    eapply wp_mono; [apply work_applyWithGuard| |done].
    intros ? w3 [Hq3 Hs3]. split; congruence.
  - eapply wp_mono; [apply work_applyWithGuard|done|done].
  - apply work_call_unguarded.
Qed.

Lemma work_rerun_applied updates :
  ∀ snk w,
  wp (rerun_applied updates snk)
     (λ _ w', queued_work (queue w') = queued_work (queue w)
              ∧ store w' = store w)
     (λ _, True) w.
Proof.
  induction updates as [|u l IH]; intros snk w; simpl; [by wp_step|].
  wp_step. eapply wp_mono; [apply work_run_optimisticUpdate| |done].
  intros snk' w' [Hq Hs]. eapply wp_mono; [apply IH| |done].
  intros ? w'' [Hq' Hs']. split; congruence.
Qed.

Lemma work_apply_pending updates :
  ∀ snk w,
  wp (apply_pending updates snk)
     (λ _ w',
        queued_work (queue w')
        = queued_work
            (set_appliedOptimisticUpdates
               (foldl (λ l u, ou_add u l)
                      (_appliedOptimisticUpdates (queue w)) updates)
               (queue w))
        ∧ store w' = store w)
     (λ _, True) w.
Proof.
  induction updates as [|u l IH]; intros snk w; simpl; [by wp_step|].
  wp_step. eapply wp_mono; [apply work_run_optimisticUpdate| |done].
  intros snk' w' [Hq Hs]. cbn [fst snd]. wp_step. wp_step.
  eapply wp_mono; [apply IH| |done].
  intros ? w'' [Hq' Hs']. split; [|by rewrite Hs'].
  rewrite Hq'. unfold queued_work in *. simpl.
  injection Hq as H1 H2 H3 H4 H5 H6. by rewrite H1, H2, H3, H4, H5, H6.
Qed.

Lemma work__applyUpdates w :
  wp _applyUpdates
     (λ _ w',
        queued_work (queue w')
        = queued_work
            (set_pendingOptimisticUpdates []
               (set_appliedOptimisticUpdates
                  (foldl (λ l u, ou_add u l)
                         (_appliedOptimisticUpdates (queue w))
                         (_pendingOptimisticUpdates (queue w)))
                  (queue w))))
     (λ _, True) w.
Proof.
  unfold _applyUpdates. wp_step. wp_step.
  destruct (_pendingOptimisticUpdates (queue w)) as [|u l] eqn:Hpending.
  { cbn [nonempty orb foldl].
    assert (Heq : queued_work
                    (set_pendingOptimisticUpdates []
                       (set_appliedOptimisticUpdates
                          (_appliedOptimisticUpdates (queue w)) (queue w)))
                  = queued_work (queue w)).
    { unfold queued_work. simpl. by rewrite Hpending. }
    rewrite Heq. clear Heq.
    destruct (_ && _); [|by wp_step].
    wp_step. eapply wp_mono; [apply work_rerun_applied| |done].
    intros snk w1 [Hq Hs]. cbn [fst snd]. wp_step. wp_step. by wp_step. }
  cbn [nonempty orb]. wp_step.
  assert (Hrebase :
    wp (if _pendingBackupRebase (queue w)
           && nonempty (_appliedOptimisticUpdates (queue w))
        then rerun_applied (_appliedOptimisticUpdates (queue w))
                           RelayRecordSource.create
        else mret RelayRecordSource.create)
       (λ _ w', queued_work (queue w') = queued_work (queue w)
                ∧ store w' = store w)
       (λ _, True) w).
  { destruct (_ && _); [apply work_rerun_applied|by wp_step]. }
  eapply wp_mono; [exact Hrebase| |done].
  intros snk w1 [Hq Hs]. cbn [fst snd]. wp_step. wp_step.
  eapply wp_mono; [apply work_apply_pending| |done].
  intros s w2 [Hq2 Hs2]. cbn [fst snd]. wp_step. wp_step. wp_step. wp_step.
  unfold queued_work in *. simpl in Hq2. simpl.
  injection Hq as H1 H2 H3 H4 H5 H6.
  injection Hq2 as G1 G2 G3 G4 G5 G6.
  by rewrite G1, G2, G3, G4, G6, H1, H2, H3, H4, H6.
Qed.

Lemma work_publish_backup w :
  wp publish_backup
     (λ _ w', queued_work (queue w') = queued_work (queue w))
     (λ _, False) w.
Proof.
  unfold publish_backup. wp_step. wp_step.
  destruct (_ && _); [|by wp_step]. wp_step. wp_step. by wp_step.
Qed.

Lemma work_commit_entries todo :
  ∀ done w,
  wp (commit_entries done todo) (λ _ w', queue w' = queue w) (λ _, True) w.
Proof.
  induction todo as [|d todo IH]; intros done w; simpl; [by wp_step|].
  destruct d as [payload|src].
  - wp_step. wp_step.
    destruct (_getSourceFromPayload _ _ _) as [snk completion].
    destruct completion.
    + wp_step. wp_step. apply (IH _ (with_store _ w)).
    + wp_step. wp_step. by wp_step.
  - wp_step. wp_step. apply (IH _ (with_store _ w)).
Qed.

Lemma work__commitData w :
  wp _commitData
     (λ _ w', queued_work (queue w')
              = queued_work (set_pendingData [] (queue w)))
     (λ _, True) w.
Proof.
  unfold _commitData. wp_step. wp_step.
  destruct (_pendingData (queue w)) as [|d l] eqn:Hdata.
  { wp_step. unfold queued_work. simpl. by rewrite Hdata. }
  wp_step. eapply wp_mono; [apply work_commit_entries| |done].
  intros ? w' Hw'. wp_step. simpl. by rewrite Hw'.
Qed.

Lemma work_run_updaters updaters :
  ∀ snk w,
  wp (run_updaters updaters snk)
     (λ _ w', queue w' = queue w ∧ store w' = store w) (λ _, False) w.
Proof.
  induction updaters as [|u l IH]; intros snk w; simpl; [by wp_step|].
  wp_step. unfold applyWithGuard. wp_step.
  unfold wp at 1, call_proxy. destruct (su_call u _ _) as [after completion].
  cbn [fst snd]. destruct completion.
  - wp_step. eapply wp_mono; [apply IH| |done].
    intros ? w' [Hq Hs]. by rewrite Hq, Hs.
  - wp_step. apply wp_report. wp_step.
    eapply wp_mono; [apply IH| |done].
    intros ? w' [Hq Hs]. by rewrite Hq, Hs.
Qed.

Lemma work__commitUpdaters w :
  wp _commitUpdaters
     (λ _ w', queued_work (queue w')
              = queued_work (set_pendingUpdaters [] (queue w)))
     (λ _, False) w.
Proof.
  unfold _commitUpdaters. wp_step. wp_step.
  destruct (_pendingUpdaters (queue w)) as [|u l] eqn:Hupdaters.
  { wp_step. unfold queued_work. simpl. by rewrite Hupdaters. }
  wp_step. eapply wp_mono; [apply work_run_updaters| |done].
  intros snk w' [Hq Hs]. wp_step. wp_step. wp_step. simpl. by rewrite Hq.
Qed.

Lemma work_reconcile_gcHold w :
  wp reconcile_gcHold
     (λ _ w', queued_work (queue w') = queued_work (queue w))
     (λ _, False) w.
Proof.
  unfold reconcile_gcHold. wp_step. wp_step.
  destruct (nonempty _); destruct (_gcHold (queue w)) as [[]|];
    by wp_step.
Qed.

Lemma notify_updatedRecordIDs st : _updatedRecordIDs (notify st).1.1 = ∅.
Proof. unfold notify. by destruct (notify_subscriptions _ _) as [[? ?] ?]. Qed.

(** The work of the queue after a [run()] that returns. *)
Lemma work_run w :
  wp run
     (λ _ w',
        queued_work (queue w')
        = (_handlerProvider (queue w), false, [], [], [],
           foldl (λ l u, ou_add u l) (_appliedOptimisticUpdates (queue w))
                 (_pendingOptimisticUpdates (queue w)))
        ∧ _updatedRecordIDs (store w') = ∅)
     (λ _, True) w.
Proof.
  unfold run. wp_step.
  eapply wp_mono; [apply work_publish_backup| |done].
  intros ? w1 H1. wp_step.
  eapply wp_mono; [apply work__commitData| |done].
  intros ? w2 H2. wp_step.
  eapply wp_mono; [apply work__commitUpdaters| |done].
  intros ? w3 H3. wp_step.
  eapply wp_mono; [apply work__applyUpdates| |done].
  intros ? w4 H4. wp_step. wp_step. wp_step.
  eapply wp_mono; [apply work_reconcile_gcHold| |done].
  intros ? w5 H5. apply wp_store_notify. cbn [queue store].
  split; [|apply notify_updatedRecordIDs].
  rewrite H5. unfold queued_work in *. simpl in *.
  injection H1 as A1 A2 A3 A4 A5 A6.
  injection H2 as B1 B2 B3 B4 B5 B6.
  injection H3 as C1 C2 C3 C4 C5 C6.
  injection H4 as D1 D2 D3 D4 D5 D6.
  congruence.
Qed.

(** X11. A [run()] that returns leaves no work in the queue: no pending
    data, no pending updaters, no pending optimistic update, no rebase
    asked for; every optimistic update that was pending has been added, in
    order, to the applied ones; and the store has no DataID recorded as
    updated. *)
Theorem run_drains_queue (w w' : World) (owners : list RequestDescriptor) :
  run w = Returns owners w' →
  _pendingData (queue w') = []
  ∧ _pendingUpdaters (queue w') = []
  ∧ _pendingOptimisticUpdates (queue w') = []
  ∧ _pendingBackupRebase (queue w') = false
  ∧ _appliedOptimisticUpdates (queue w')
    = foldl (λ l u, ou_add u l) (_appliedOptimisticUpdates (queue w))
            (_pendingOptimisticUpdates (queue w))
  ∧ _handlerProvider (queue w') = _handlerProvider (queue w)
  ∧ _updatedRecordIDs (store w') = ∅.
Proof.
  intros Hrun. pose proof (work_run w) as Hwp.
  unfold wp in Hwp. rewrite Hrun in Hwp. destruct Hwp as [Hq Hs].
  unfold queued_work in Hq. injection Hq as H1 H2 H3 H4 H5 H6. done.
Qed.

Lemma ou_has_id l (u v : OptimisticUpdate) :
  ou_id u = ou_id v → ou_has l u = ou_has l v.
Proof. unfold ou_has. by intros ->. Qed.

Lemma ou_has_delete_true l (u v : OptimisticUpdate) :
  ou_has (ou_delete u l) v = true → ou_has l v = true.
Proof.
  destruct (decide (ou_id v = ou_id u)) as [Heq|Hne].
  - by rewrite (ou_has_id _ v u Heq), ou_has_delete.
  - by rewrite ou_has_delete_other.
Qed.

Lemma ou_has_delete_false l (u v : OptimisticUpdate) :
  ou_has l v = false → ou_has (ou_delete u l) v = false.
Proof.
  intros Hl. destruct (ou_has (ou_delete u l) v) eqn:Hd; [|done].
  apply ou_has_delete_true in Hd. congruence.
Qed.

Lemma revertUpdate_disjoint u q :
  pending_applied_disjoint q → pending_applied_disjoint (revertUpdate u q).
Proof.
  unfold pending_applied_disjoint, revertUpdate. intros Hq v.
  destruct (ou_has (_pendingOptimisticUpdates q) u); simpl.
  - intros Hv. apply Hq. by apply ou_has_delete_true in Hv.
  - destruct (ou_has (_appliedOptimisticUpdates q) u); simpl; [|by apply Hq].
    intros Hv. apply ou_has_delete_false. by apply Hq.
Qed.

Lemma queue_call_disjoint c w :
  pending_applied_disjoint (queue w) →
  wp (queue_call c) (λ _ w', pending_applied_disjoint (queue w')) (λ _, True) w.
Proof.
  intros Hw. destruct c as [u|u| |]; simpl.
  - unfold wp. rewrite applyUpdate_spec.
    destruct (ou_has (_appliedOptimisticUpdates (queue w)) u) eqn:Ha; [done|].
    destruct (ou_has (_pendingOptimisticUpdates (queue w)) u) eqn:Hp; [done|].
    simpl. intros v. simpl. rewrite ou_has_app. intros Hv.
    apply orb_true_iff in Hv as [Hv|Hv]; [by apply Hw|].
    unfold ou_has in Hv. simpl in Hv. rewrite orb_false_r in Hv.
    apply bool_decide_eq_true in Hv. by rewrite (ou_has_id _ v u).
  - wp_step. simpl. by apply revertUpdate_disjoint.
  - wp_step. by intros v.
  - wp_step. eapply wp_mono; [apply work_run| |done].
    intros ? w' [Hq _]. wp_step. unfold queued_work in Hq.
    injection Hq as _ _ _ _ Hpending _. intros v. by rewrite Hpending.
Qed.

Lemma queue_calls_disjoint calls :
  ∀ w, pending_applied_disjoint (queue w) →
  wp (queue_calls calls) (λ _ w', pending_applied_disjoint (queue w'))
     (λ _, True) w.
Proof.
  induction calls as [|c calls IH]; intros w Hw; simpl; [by wp_step|].
  wp_step. eapply wp_mono; [by apply queue_call_disjoint| |done].
  intros ? w' Hw'. by apply IH.
Qed.

(** X12. No optimistic update is ever both pending and applied: after any
    sequence of [applyUpdate], [revertUpdate], [revertAll] and [run] on a
    fresh queue that returns, the two sets are disjoint. *)
Theorem pending_and_applied_disjoint (handlerProvider : option HandlerProvider)
    (st : Store) (calls : list QueueCall) (w : World) :
  queue_calls calls (fresh_world handlerProvider st) = Returns tt w →
  pending_applied_disjoint (queue w).
Proof.
  intros Hcalls.
  assert (H0 : pending_applied_disjoint
                 (queue (fresh_world handlerProvider st))) by (by intros v).
  pose proof (queue_calls_disjoint calls _ H0) as Hwp.
  unfold wp in Hwp. by rewrite Hcalls in Hwp.
Qed.

(** X13. A [run()] with nothing to do changes no data: when no data, no
    updater and no optimistic update is pending and no rebase is asked for,
    [run()] returns, none of the applied optimistic updates is run again, and
    the canonical source, the backup and the applied updates are as
    before. *)
Theorem run_idle (w : World) :
  _pendingBackupRebase (queue w) = false →
  _pendingData (queue w) = [] →
  _pendingUpdaters (queue w) = [] →
  _pendingOptimisticUpdates (queue w) = [] →
  ∃ owners w',
    run w = Returns owners w'
    ∧ _recordSource (store w') = _recordSource (store w)
    ∧ _backup (queue w') = _backup (queue w)
    ∧ _appliedOptimisticUpdates (queue w')
      = _appliedOptimisticUpdates (queue w)
    ∧ reported w' = reported w.
Proof.
  intros Hflag Hdata Hupdaters Hpending.
  assert (Hwp : wp run
    (λ _ w', _recordSource (store w') = _recordSource (store w)
             ∧ _backup (queue w') = _backup (queue w)
             ∧ _appliedOptimisticUpdates (queue w')
               = _appliedOptimisticUpdates (queue w)
             ∧ reported w' = reported w)
    (λ _, False) w).
  { unfold run. wp_step. unfold publish_backup. wp_step. wp_step.
    rewrite Hflag. cbn [andb]. wp_step. wp_step.
    unfold _commitData. wp_step. wp_step. rewrite Hdata. wp_step. wp_step.
    unfold _commitUpdaters. wp_step. wp_step. rewrite Hupdaters.
    wp_step. wp_step.
    unfold _applyUpdates. wp_step. wp_step. rewrite Hpending, Hflag.
    cbn [nonempty orb andb]. wp_step. wp_step. wp_step. wp_step.
    unfold reconcile_gcHold. wp_step. wp_step.
    destruct (nonempty _); destruct (_gcHold _) as [[]|]; cbv beta iota.
    - wp_step. apply wp_store_notify. simpl.
      by rewrite notify_recordSource.
    - wp_step. wp_step. wp_step. apply wp_store_notify. simpl.
      by rewrite notify_recordSource.
    - wp_step. wp_step. wp_step. apply wp_store_notify. simpl.
      by rewrite notify_recordSource, holdGC_dispose_recordSource.
    - wp_step. apply wp_store_notify. simpl.
      by rewrite notify_recordSource. }
  apply wp_total in Hwp as (owners & w' & Hrun & Hw'). eauto.
Qed.

(** *** The order of the effects of [run()] *)

Lemma published_empty target : published target ∅ = target.
Proof. unfold published. by rewrite updateTargetFromSource_empty. Qed.

Lemma exact_publish_backup w :
  wp publish_backup
     (λ _ w',
        _recordSource (store w')
        = (if _pendingBackupRebase (queue w)
           then published (_recordSource (store w)) (_backup (queue w))
           else _recordSource (store w))
        ∧ _backup (queue w')
          = (if _pendingBackupRebase (queue w) then ∅ else _backup (queue w))
        ∧ queued_work (queue w') = queued_work (queue w))
     (λ _, False) w.
Proof.
  unfold publish_backup. wp_step. wp_step.
  destruct (_pendingBackupRebase (queue w)); cbn [andb]; [|by wp_step].
  case_bool_decide as Hsize; cbn [negb].
  - wp_step. apply map_size_empty_inv in Hsize.
    rewrite Hsize. by rewrite published_empty.
  - wp_step. wp_step. wp_step. simpl. by rewrite publish_recordSource.
Qed.












(** *** Payloads that make [run()] raise *)

(** When [_getSourceFromPayload] raises for the first entry of the pending
    data, [run()] raises there: the backup has been published when a rebase
    was asked for, and nothing else has. *)
Lemma run_raises_at_first_payload (w : World) (payload : Payload)
    (rest : list DataToCommit) :
  _pendingData (queue w) = DataPayload payload :: rest →
  (∀ q st, _handlerProvider q = _handlerProvider (queue w) →
           (_getSourceFromPayload q st payload).2 = Raised) →
  wp run (λ _ _, False)
     (λ w',
        _recordSource (store w')
        = (if _pendingBackupRebase (queue w)
           then published (_recordSource (store w)) (_backup (queue w))
           else _recordSource (store w))
        ∧ length (_pendingData (queue w')) = S (length rest)
        ∧ _pendingBackupRebase (queue w') = _pendingBackupRebase (queue w))
     w.
Proof.
  intros Hdata Hraises. unfold run. wp_step.
  eapply wp_mono; [apply exact_publish_backup| |done].
  intros ? w1 (Hs1 & Hb1 & Hq1). wp_step.
  unfold queued_work in Hq1. injection Hq1 as A1 A2 A3 A4 A5 A6.
  unfold _commitData. wp_step. wp_step. rewrite A3, Hdata.
  wp_step. cbn [commit_entries]. wp_step. wp_step.
  specialize (Hraises (queue w1) (store w1) A1).
  destruct (_getSourceFromPayload _ _ _) as [snk completion].
  simpl in Hraises. subst completion. wp_step. wp_step. wp_step.
  simpl. by rewrite Hs1, A2.
Qed.

Lemma run_handlers_without_handler handlerProvider base fieldPayloads snk :
  Exists (λ fieldPayload,
            handlerProvider ≫= (λ provider, provider (handle fieldPayload))
            = None) fieldPayloads →
  (run_handlers handlerProvider base fieldPayloads snk).2 = Raised.
Proof.
  revert snk.
  induction fieldPayloads as [|fieldPayload rest IH]; intros snk Hexists;
    [by apply Exists_nil in Hexists|].
  cbn [run_handlers].
  destruct handlerProvider as [provider|]; simpl in *; [|done].
  destruct (provider (handle fieldPayload)) as [handler|] eqn:Hhandler;
    [|done].
  destruct (handler fieldPayload base _) as [after completion].
  destruct completion; [|done].
  apply IH. apply Exists_cons in Hexists as [Hhead|Htail]; [|done].
  congruence.
Qed.

(** X15. A payload with a handle field whose handler is not provided makes
    [run()] raise: when the first entry of the pending data is a payload one
    of whose field payloads has no handler (no handler provider, or a
    provider that has none for the handle), [run()] raises, whatever the
    handlers of the field payloads before it do; the canonical source then is
    the source before with the backup published onto it when a rebase was
    asked for, the pending data are still queued and the rebase is still
    asked for as before. *)
Theorem run_raises_without_handler (w : World) (payload : Payload)
    (rest : list DataToCommit) (payloads : list HandleFieldPayload) :
  _pendingData (queue w) = DataPayload payload :: rest →
  fieldPayloads payload = Some payloads →
  Exists (λ fieldPayload,
            _handlerProvider (queue w)
              ≫= (λ provider, provider (handle fieldPayload)) = None)
         payloads →
  returns (run w) = false
  ∧ _recordSource (store (outcome_world (run w)))
    = (if _pendingBackupRebase (queue w)
       then published (_recordSource (store w)) (_backup (queue w))
       else _recordSource (store w))
  ∧ length (_pendingData (queue (outcome_world (run w))))
    = length (_pendingData (queue w))
  ∧ _pendingBackupRebase (queue (outcome_world (run w)))
    = _pendingBackupRebase (queue w).
Proof.
  intros Hdata Hfields Hexists.
  assert (Hraises : ∀ q st, _handlerProvider q = _handlerProvider (queue w) →
            (_getSourceFromPayload q st payload).2 = Raised).
  { intros q st Hq. unfold _getSourceFromPayload. rewrite Hfields, Hq.
    destruct payloads as [|fieldPayload others];
      [by apply Exists_nil in Hexists|].
    pose proof (run_handlers_without_handler (_handlerProvider (queue w))
                  (getSource st) (fieldPayload :: others) (source payload)
                  Hexists) as Hr.
    destruct (run_handlers _ _ _ _) as [snk completion].
    simpl in Hr. by subst completion. }
  pose proof (run_raises_at_first_payload w payload rest Hdata Hraises) as Hwp.
  unfold wp in Hwp. rewrite Hdata. destruct (run w); [done|]. by simpl.
Qed.

(** X16. A payload with an updater whose operation has no fragment makes
    [run()] raise: when the first entry of the pending data is such a
    payload, whatever its field payloads and their handlers do, [run()]
    raises with the payload not published and the data still queued. *)
Theorem run_raises_without_fragment (w : World) (payload : Payload)
    (rest : list DataToCommit) (upd : SelectorStoreUpdater) :
  _pendingData (queue w) = DataPayload payload :: rest →
  updater payload = Some upd →
  operation_fragment (operation payload) = None →
  returns (run w) = false
  ∧ _recordSource (store (outcome_world (run w)))
    = (if _pendingBackupRebase (queue w)
       then published (_recordSource (store w)) (_backup (queue w))
       else _recordSource (store w))
  ∧ length (_pendingData (queue (outcome_world (run w))))
    = length (_pendingData (queue w))
  ∧ _pendingBackupRebase (queue (outcome_world (run w)))
    = _pendingBackupRebase (queue w).
Proof.
  intros Hdata Hupd Hfragment.
  assert (Hraises : ∀ q st, _handlerProvider q = _handlerProvider (queue w) →
            (_getSourceFromPayload q st payload).2 = Raised).
  { intros q st _. unfold _getSourceFromPayload. rewrite Hupd, Hfragment.
    destruct (match fieldPayloads payload with
              | Some (fieldPayload :: rest0) =>
                  run_handlers (_handlerProvider q) (getSource st)
                               (fieldPayload :: rest0) (source payload)
              | _ => (source payload, Normal)
              end) as [snk completion].
    by destruct completion. }
  pose proof (run_raises_at_first_payload w payload rest Hdata Hraises) as Hwp.
  unfold wp in Hwp. rewrite Hdata. destruct (run w); [done|]. by simpl.
Qed.

(** X17. [commitUpdate] of an updater that is already pending queues
    nothing, the pending updaters being a set of functions: the updater will
    run once. [commitSource] wraps the source in a new entry each time: a
    source committed twice is queued, and will be published, twice. *)
Theorem commit_twice (upd : StoreUpdater) (src : RecordSource)
    (q : PublishQueue) :
  commitUpdate upd (commitUpdate upd q) = commitUpdate upd q
  ∧ _pendingData (commitSource src (commitSource src q))
    = _pendingData q ++ [DataSource src; DataSource src].
Proof.
  split.
  - unfold commitUpdate, su_add. simpl.
    destruct (existsb _ (_pendingUpdaters q)) eqn:Hhas.
    + by rewrite Hhas.
    + rewrite existsb_app. simpl.
      by rewrite bool_decide_eq_true_2, orb_true_r.
  - unfold commitSource. simpl. by rewrite <- app_assoc.
Qed.

(** X18. Reverting an update twice is reverting it once, unless the update
    is both pending and applied: when it is not both, a second
    [revertUpdate] of the same update changes nothing; when it is both, the
    first takes it from the pending set and the second sets
    [_pendingBackupRebase] and takes it from the applied set. *)
Theorem revertUpdate_idempotent (u : OptimisticUpdate) (q : PublishQueue) :
  (ou_has (_pendingOptimisticUpdates q) u
   && ou_has (_appliedOptimisticUpdates q) u = false →
   revertUpdate u (revertUpdate u q) = revertUpdate u q)
  ∧ (ou_has (_pendingOptimisticUpdates q) u = true →
     ou_has (_appliedOptimisticUpdates q) u = true →
     ou_has (_appliedOptimisticUpdates (revertUpdate u q)) u = true
     ∧ _pendingBackupRebase (revertUpdate u q) = _pendingBackupRebase q
     ∧ ou_has (_appliedOptimisticUpdates
                 (revertUpdate u (revertUpdate u q))) u = false
     ∧ _pendingBackupRebase (revertUpdate u (revertUpdate u q)) = true
     ∧ revertUpdate u (revertUpdate u q) ≠ revertUpdate u q).
Proof.
  split.
  - intros Hboth. unfold revertUpdate at 2 3.
    destruct (ou_has (_pendingOptimisticUpdates q) u) eqn:Hp.
    + simpl in Hboth. unfold revertUpdate. simpl.
      by rewrite ou_has_delete, Hboth.
    + destruct (ou_has (_appliedOptimisticUpdates q) u) eqn:Ha.
      * unfold revertUpdate. simpl. by rewrite Hp, ou_has_delete.
      * unfold revertUpdate. by rewrite Hp, Ha.
  - intros Hp Ha.
    assert (Hfirst : revertUpdate u q
                     = set_pendingOptimisticUpdates
                         (ou_delete u (_pendingOptimisticUpdates q)) q).
    { unfold revertUpdate. by rewrite Hp. }
    assert (Hsecond : _appliedOptimisticUpdates
                        (revertUpdate u (revertUpdate u q))
                      = ou_delete u (_appliedOptimisticUpdates q)
                      ∧ _pendingBackupRebase
                          (revertUpdate u (revertUpdate u q)) = true).
    { rewrite Hfirst. unfold revertUpdate. simpl.
      by rewrite ou_has_delete, Ha. }
    destruct Hsecond as [Happlied Hflag].
    split; [by rewrite Hfirst|]. split; [by rewrite Hfirst|].
    split; [by rewrite Happlied, ou_has_delete|]. split; [done|].
    intros Heq. apply (f_equal (λ q', ou_has (_appliedOptimisticUpdates q') u))
      in Heq.
    rewrite Happlied, ou_has_delete, Hfirst in Heq. simpl in Heq. congruence.
Qed.

End MoreQueue.

(** ** More examples *)

(** X1, at the store of the example and a source that touches only "3": the
    user "2" is left alone. *)
Lemma publish_footprint_witness :
  let st := RelayModernStore_new example_source in
  _recordSource (publish claire_source st) !! "2"%string
  = _recordSource st !! "2"%string
  ∧ ("2"%string ∈ _updatedRecordIDs (publish claire_source st)
     ↔ "2"%string ∈ _updatedRecordIDs st).
Proof.
  intros st.
  destruct (publish_footprint claire_source st "2" eq_refl) as (H1 & H2 & _).
  exact (conj H1 H2).
Defined.

(** X2, at the store of the example: "3" is unpublished, "2" is deleted and
    "4" is new. *)
Lemma publish_entry_witness :
  let st := RelayModernStore_new example_source in
  _recordSource (publish mixed_source st) !! "3"%string = None
  ∧ _recordSource (publish mixed_source st) !! "2"%string = Some ENull
  ∧ _recordSource (publish mixed_source st) !! "4"%string
    = Some (ERecord (user_record "4" "Dan")).
Proof.
  intros st.
  destruct (publish_entry mixed_source st "3") as (H3 & _ & _).
  destruct (publish_entry mixed_source st "2") as (_ & H2 & _).
  destruct (publish_entry mixed_source st "4") as (_ & _ & H4).
  exact (conj (proj1 (H3 eq_refl))
           (conj (proj1 (H2 eq_refl))
              (proj1 (H4 (user_record "4" "Dan") eq_refl eq_refl)))).
Defined.

Lemma example_source_no_sentinel : no_sentinel example_source.
Proof.
  intros j. unfold example_source.
  destruct (decide (j = "2"%string)) as [->|Hj].
  - by rewrite lookup_singleton_eq.
  - by rewrite lookup_singleton_ne.
Qed.

(** X3, at the store of the example: a source with the sentinel is
    published. *)
Lemma store_never_holds_sentinel_witness :
  no_sentinel
    (_recordSource
       (store_calls (RelayModernStore_new example_source) example_store_calls)).
Proof.
  exact (store_never_holds_sentinel example_source example_store_calls
           example_source_no_sentinel).
Defined.

(** X7, at a store that retains one root. *)
Lemma gc_deferred_while_held_witness :
  scheduledThunks (retain_dispose 0 (holdGC retained_store)) = 0%nat
  ∧ scheduledThunks
      (holdGC_dispose (retain_dispose 0 (holdGC retained_store))) = 1%nat.
Proof.
  destruct (gc_deferred_while_held retained_store 0 eq_refl eq_refl)
    as (H1 & _ & _ & H2 & _).
  exact (conj H1 H2).
Defined.

(** X8, at a store that retains one root. *)
Lemma scheduled_gc_runs_while_held_witness :
  _gcHoldCounter
    (store_calls retained_store
       [CallRetainDispose 0; CallHoldGC; SchedulerRuns]) = 1
  ∧ _recordSource
      (store_calls retained_store
         [CallRetainDispose 0; CallHoldGC; SchedulerRuns])
    = _recordSource (__gc (retain_dispose 0 retained_store)).
Proof.
  destruct (scheduled_gc_runs_while_held retained_store 0 eq_refl eq_refl
              eq_refl) as (H1 & _ & _ & _ & H2).
  exact (conj H1 H2).
Defined.

(** X9, at the example queue: the update is accepted once. *)
Lemma applyUpdate_rejects_duplicates_witness :
  (∃ w1, applyUpdate optimistic_create example_world = Returns tt w1
         ∧ applyUpdate optimistic_create w1 = Throws w1)
  ∧ applyUpdate optimistic_create world_applied = Throws world_applied.
Proof.
  destruct (applyUpdate_rejects_duplicates optimistic_create example_world)
    as [Hnew _].
  destruct (applyUpdate_rejects_duplicates optimistic_create world_applied)
    as [_ Hold].
  destruct (Hnew eq_refl eq_refl) as (w1 & H1 & _ & _ & _ & _ & H2).
  assert (Hhas : ou_has (_appliedOptimisticUpdates (queue world_applied))
                        optimistic_create
                 || ou_has (_pendingOptimisticUpdates (queue world_applied))
                           optimistic_create = true)
    by (vm_compute; reflexivity).
  exact (conj (ex_intro _ w1 (conj H1 H2)) (Hold Hhas)).
Defined.

Lemma applyUpdate_example_world :
  applyUpdate optimistic_create example_world = Returns tt world_pending.
Proof.
  assert (Hreturns : returns (applyUpdate optimistic_create example_world)
                     = true) by (vm_compute; reflexivity).
  unfold world_pending.
  by destruct (applyUpdate optimistic_create example_world) as [[] w1|w1].
Qed.

(** X10, at the example queue. *)
Lemma apply_then_revert_witness :
  modify_queue (revertUpdate optimistic_create) world_pending
  = Returns tt example_world.
Proof.
  exact (apply_then_revert optimistic_create example_world world_pending
           applyUpdate_example_world).
Defined.

(** X11, at the example queue: the pending update is applied. *)
Lemma run_drains_queue_witness :
  _pendingOptimisticUpdates (queue world_applied) = []
  ∧ _pendingBackupRebase (queue world_applied) = false
  ∧ _appliedOptimisticUpdates (queue world_applied)
    = foldl (λ l u, ou_add u l)
            (_appliedOptimisticUpdates (queue world_pending))
            (_pendingOptimisticUpdates (queue world_pending)).
Proof.
  destruct run_world_pending as [owners Hrun].
  destruct (run_drains_queue world_pending world_applied owners Hrun)
    as (_ & _ & H1 & H2 & H3 & _).
  exact (conj H1 (conj H2 H3)).
Defined.

(** X12, at the calls of the example. *)
Lemma pending_and_applied_disjoint_witness :
  pending_applied_disjoint (queue world_applied).
Proof.
  exact (pending_and_applied_disjoint None
           (RelayModernStore_new example_source) example_calls world_applied
           example_calls_return).
Defined.

(** X13, at the fresh queue of the example. *)
Lemma run_idle_witness :
  ∃ owners w',
    run example_world = Returns owners w'
    ∧ _recordSource (store w') = _recordSource (store example_world).
Proof.
  destruct (run_idle example_world eq_refl eq_refl eq_refl eq_refl)
    as (owners & w' & Hrun & Hsource & _).
  exact (ex_intro _ owners (ex_intro _ w' (conj Hrun Hsource))).
Defined.




(** X15, at a queue whose provider has a handler for the first handle of the
    payload and none for the second. *)
Lemma run_raises_without_handler_witness :
  returns (run world_handle) = false
  ∧ _recordSource (store (outcome_world (run world_handle)))
    = published example_source ∅.
Proof.
  assert (Hexists :
    Exists (λ fieldPayload,
              _handlerProvider (queue world_handle)
                ≫= (λ provider, provider (handle fieldPayload)) = None)
           [name_handle; friends_handle]).
  { apply Exists_cons_tl, Exists_cons_hd. reflexivity. }
  destruct (run_raises_without_handler world_handle handle_payload []
              [name_handle; friends_handle] eq_refl eq_refl Hexists)
    as (H1 & H2 & _).
  exact (conj H1 H2).
Defined.

(** X16, at a payload whose operation has no fragment. *)
Lemma run_raises_without_fragment_witness :
  returns (run world_fragmentless) = false
  ∧ _recordSource (store (outcome_world (run world_fragmentless)))
    = published example_source ∅.
Proof.
  destruct (run_raises_without_fragment world_fragmentless
              fragmentless_payload [] (λ _, create_user)
              eq_refl eq_refl eq_refl)
    as (H1 & H2 & _).
  exact (conj H1 H2).
Defined.

(** X18, at the example queue with the update pending, and at the queue in
    which it is pending and applied. *)
Lemma revertUpdate_idempotent_witness :
  revertUpdate optimistic_create
    (revertUpdate optimistic_create (queue world_pending))
  = revertUpdate optimistic_create (queue world_pending)
  ∧ revertUpdate optimistic_create
      (revertUpdate optimistic_create (queue world_stuck))
    ≠ revertUpdate optimistic_create (queue world_stuck).
Proof.
  destruct (revertUpdate_idempotent optimistic_create (queue world_pending))
    as [Hsame _].
  destruct (revertUpdate_idempotent optimistic_create (queue world_stuck))
    as [_ Hdiffers].
  assert (Hn : ou_has (_pendingOptimisticUpdates (queue world_pending))
                      optimistic_create
               && ou_has (_appliedOptimisticUpdates (queue world_pending))
                         optimistic_create = false)
    by (vm_compute; reflexivity).
  assert (Hp : ou_has (_pendingOptimisticUpdates (queue world_stuck))
                      optimistic_create = true)
    by (vm_compute; reflexivity).
  assert (Ha : ou_has (_appliedOptimisticUpdates (queue world_stuck))
                      optimistic_create = true)
    by (vm_compute; reflexivity).
  destruct (Hdiffers Hp Ha) as (_ & _ & _ & _ & Hne).
  exact (conj (Hsame Hn) Hne).
Defined.
